(** * snap-confine: the command-line argument parser

    A shallow embedding of [src/snap-confine-args.c] and the properties of
    [sc_nonfatal_parse_args] and [sc_cleanup_args].

    Conventions of the embedding:
    - a C pointer is an [option]: [NULL] is [None];
    - a NUL-terminated string is the [string] of the bytes before its
      terminator, a pointer into the middle of a string is the suffix that
      starts there;
    - [int] values are in [Z]; no operation of the parser leaves the range
      of [int] when the count it is given is in range;
    - the objects obtained from [calloc] and [strdup] live in a heap, a finite
      map from locations to blocks; [free] removes a block;
    - the argument vector is an array of string pointers, a list that is read
      and written by index;
    - an operation either returns, terminates the process through [die], or
      has no defined behaviour (an access outside an array, through [NULL] or
      to a block that is not allocated). *)

From Stdlib Require Import ZArith Lia Ascii String.
From stdpp Require Import base option list strings gmap.

Open Scope Z_scope.

(** ** Pointers, outcomes and the heap *)

Abbreviation ptr := option (only parsing).
Abbreviation NULL := None (only parsing).

Inductive outcome (A : Type) : Type :=
  | Ok (a : A)
  | Die (msg : string)
  | Fault.
Arguments Ok {A} a.
Arguments Die {A} msg.
Arguments Fault {A}.

Definition loc := positive.

(** [struct sc_args]: the two strings are owned heap blocks. *)
Record sc_args := mk_args {
  security_tag : ptr loc;
  executable : ptr loc;
  is_version_query : bool;
  is_classic_confinement : bool
}.

Inductive block :=
  | Chars (s : string)
  | Args (a : sc_args).

Abbreviation heap := (gmap loc block).

(** Computations over the heap. *)
Definition M (A : Type) : Type := heap -> outcome (A * heap).

#[global] Instance M_ret : MRet M := fun A a h => Ok (a, h).

#[global] Instance M_bind : MBind M := fun A B k m h =>
  match m h with
  | Ok (a, h') => k a h'
  | Die msg => Die msg
  | Fault => Fault
  end.

Definition die {A} (msg : string) : M A := fun _ => Die msg.

(** [malloc]-family allocation: a fresh location. Allocation failure is not
    modelled, the returned pointer is never [NULL]. *)
Definition alloc (b : block) : M (ptr loc) :=
  fun h => let l := fresh (dom h) in Ok (Some l, <[l := b]> h).

(** [free(p)]: nothing for [NULL], undefined for a block that is not live. *)
Definition free (p : ptr loc) : M unit :=
  fun h =>
    match p with
    | NULL => Ok (tt, h)
    | Some l =>
        match h !! l with
        | Some _ => Ok (tt, delete l h)
        | None => Fault
        end
    end.

(** Reading and writing the structure behind a [struct sc_args *]. *)
Definition load_args (l : loc) : M sc_args :=
  fun h =>
    match h !! l with
    | Some (Args a) => Ok (a, h)
    | _ => Fault
    end.

Definition store_args (l : loc) (a : sc_args) : M unit :=
  fun h =>
    match h !! l with
    | Some (Args _) => Ok (tt, <[l := Args a]> h)
    | _ => Fault
    end.

Definition load_chars (l : loc) : M string :=
  fun h =>
    match h !! l with
    | Some (Chars s) => Ok (s, h)
    | _ => Fault
    end.

Definition set_security_tag (a : sc_args) (p : ptr loc) : sc_args :=
  mk_args p (executable a) (is_version_query a) (is_classic_confinement a).
Definition set_executable (a : sc_args) (p : ptr loc) : sc_args :=
  mk_args (security_tag a) p (is_version_query a) (is_classic_confinement a).
Definition set_is_version_query (a : sc_args) (b : bool) : sc_args :=
  mk_args (security_tag a) (executable a) b (is_classic_confinement a).
Definition set_is_classic_confinement (a : sc_args) (b : bool) : sc_args :=
  mk_args (security_tag a) (executable a) (is_version_query a) b.

(** ** Releasing a result *)

(** [sc_args_free]. *)
Definition sc_args_free (args : ptr loc) : M unit :=
  match args with
  | NULL => mret tt
  | Some l =>
      a ← load_args l;
      free (security_tag a);;
      a ← load_args l;
      store_args l (set_security_tag a NULL);;
      a ← load_args l;
      free (executable a);;
      a ← load_args l;
      store_args l (set_executable a NULL);;
      free (Some l)
  end.

(** [sc_cleanup_args]: [ptr] is the address of the caller's reference, the
    reference it holds is passed in and the one it holds afterwards is
    returned. *)
Definition sc_cleanup_args (ref : ptr loc) : M (ptr loc) :=
  sc_args_free ref;;
  mret NULL.

(** ** Strings *)

(** [s[0]]: the first byte, the terminator for the empty string. *)
Definition first_char (s : string) : ascii :=
  match s with
  | String c _ => c
  | EmptyString => Ascii.zero
  end.

(** [strrchr(s, c)] for a byte [c] other than the terminator: the suffix that
    starts at the last occurrence of [c], [NULL] when there is none. *)
Fixpoint strrchr (s : string) (c : ascii) : ptr string :=
  match s with
  | EmptyString => NULL
  | String a s' =>
      match strrchr s' c with
      | Some r => Some r
      | NULL => if Ascii.eqb a c then Some s else NULL
      end
  end.

(** [p + 1] for a pointer into a string that does not stand at its
    terminator. *)
Definition advance (s : string) : string :=
  match s with
  | String _ r => r
  | EmptyString => EmptyString
  end.

(** [strcmp]: negative, zero or positive, by the order of the bytes. *)
Definition strcmp (a b : string) : Z :=
  match String.compare a b with
  | Eq => 0
  | Lt => -1
  | Gt => 1
  end.

(** [strdup]: a new heap block with a copy of the bytes. *)
Definition strdup (s : string) : M (ptr loc) := alloc (Chars s).

(** ** Errors *)

(** Modelled from the spec: [error.c] is not part of the source. An error
    has a domain, a numeric code and a message; [sc_error_init] builds one
    from a format and its arguments, here from the formatted message. *)
Record sc_error := mk_error {
  error_domain : string;
  error_code : Z;
  error_msg : string
}.

Definition sc_error_init (domain : string) (code : Z) (msg : string)
  : ptr sc_error :=
  Some (mk_error domain code msg).

(** Modelled from the spec: [sc_error_forward] hands the error to the caller
    through the output error cell; the result is what the cell holds
    afterwards. *)
Definition sc_error_forward (err : ptr sc_error) : ptr sc_error := err.

(** Modelled from the spec: [snap-confine-args.h] is not part of the source.
    The domain is a fixed name, the generic code is 0 and the usage code is
    not 0. *)
Definition SC_ARGS_DOMAIN : string := "args".
Definition SC_ARGS_ERR_USAGE : Z := 1.

(** ** The argument vector *)

(** An array of [char *]. *)
Abbreviation vec := (list (ptr string)).

(** [argv[i]] as an rvalue. *)
Definition vec_get (argv : ptr vec) (i : Z) : M (ptr string) :=
  fun h =>
    match argv with
    | NULL => Fault
    | Some v =>
        if i <? 0 then Fault
        else match v !! Z.to_nat i with
             | Some p => Ok (p, h)
             | None => Fault
             end
    end.

(** [argv[i] = p]. *)
Definition vec_set (argv : ptr vec) (i : Z) (p : ptr string) : M (ptr vec) :=
  fun h =>
    match argv with
    | NULL => Fault
    | Some v =>
        if i <? 0 then Fault
        else if (Z.to_nat i <? length v)%nat then
          Ok (Some (<[Z.to_nat i := p]> v), h)
        else Fault
    end.

(** Reading the bytes behind a [char *]. *)
Definition chars (p : ptr string) : M string :=
  fun h =>
    match p with
    | Some s => Ok (s, h)
    | NULL => Fault
    end.

(** ** The parser *)

(** What the caller sees when [sc_nonfatal_parse_args] returns: the returned
    handle, what the cells behind [argcp], [argvp] and [errorp] hold ([NULL]
    where the caller passed no cell), the array behind [*argvp] being given
    by its contents. *)
Record parse_result := mk_result {
  r_args : ptr loc;
  r_argc : ptr Z;
  r_argv : ptr (ptr vec);
  r_error : ptr sc_error
}.

(** The label [out]: release the result when there is an error, forward the
    error, return. *)
Definition out (args : ptr loc) (err : ptr sc_error)
    (argcp : ptr Z) (argvp : ptr (ptr vec)) : M parse_result :=
  args ← (match err with
          | Some _ => sc_cleanup_args args
          | NULL => mret args
          end);
  mret (mk_result args argcp argvp (sc_error_forward err)).

(** The scanning loop [for (optind = 1; optind < argc; ++optind)], entered at
    [optind] with [n] iterations left, that is [n] is [argc - optind] when
    that is positive and 0 otherwise. It ends through its condition or
    through [break], with no error, or through [goto out], with one; either
    way with the value [optind] has then. *)
Fixpoint parse_loop (n : nat) (argv : ptr vec) (args : loc)
    (optind : Z) (ignore_first_tag : bool) : M (Z * ptr sc_error) :=
  match n with
  | O => mret (optind, NULL)
  | S n' =>
      p ← vec_get argv optind;
      tok ← chars p;
      if Ascii.eqb (first_char tok) "-" then
        if strcmp tok "--version" =? 0 then
          a ← load_args args;
          store_args args (set_is_version_query a true);;
          mret (optind, NULL)
        else if strcmp tok "--classic" =? 0 then
          a ← load_args args;
          store_args args (set_is_classic_confinement a true);;
          parse_loop n' argv args (optind + 1) ignore_first_tag
        else
          mret (optind,
                sc_error_init SC_ARGS_DOMAIN SC_ARGS_ERR_USAGE
                  ("unrecognized command line option: " +:+ tok))
      else
        a ← load_args args;
        match security_tag a with
        | NULL =>
            if ignore_first_tag then
              parse_loop n' argv args (optind + 1) false
            else
              t ← strdup tok;
              a ← load_args args;
              store_args args (set_security_tag a t);;
              a ← load_args args;
              match security_tag a with
              | NULL => die "cannot allocate memory for security tag"
              | Some _ =>
                  parse_loop n' argv args (optind + 1) ignore_first_tag
              end
        | Some _ =>
            match executable a with
            | NULL =>
                e ← strdup tok;
                a ← load_args args;
                store_args args (set_executable a e);;
                a ← load_args args;
                match executable a with
                | NULL => die "cannot allocate memory for executable name"
                | Some _ => mret (optind, NULL)
                end
            | Some _ =>
                parse_loop n' argv args (optind + 1) ignore_first_tag
            end
        end
  end.

(** The shifting loop [for (i = 1; optind + i < argc; ++i)], entered at [i]
    with [n] iterations left; it returns the array and the final [i]. *)
Fixpoint shift_loop (n : nat) (argv : ptr vec) (optind i : Z)
  : M (ptr vec * Z) :=
  match n with
  | O => mret (argv, i)
  | S n' =>
      p ← vec_get argv (optind + i);
      argv ← vec_set argv i p;
      shift_loop n' argv optind (i + 1)
  end.

(** [sc_nonfatal_parse_args]. *)
Definition sc_nonfatal_parse_args (argcp : ptr Z) (argvp : ptr (ptr vec))
  : M parse_result :=
  match argcp, argvp with
  | Some argc, Some argv =>
      if argc =? 0 then
        out NULL
          (sc_error_init SC_ARGS_DOMAIN 0
             "cannot parse arguments, argc is zero")
          argcp argvp
      else
        args ← alloc (Args (mk_args NULL NULL false false));
        match args with
        | NULL =>
            die "cannot allocate memory for command line arguments object"
        | Some l =>
            p ← vec_get argv 0;
            argv0 ← chars p;
            let ignore_first_tag :=
              match strrchr argv0 "/" with
              | Some basename =>
                  let basename := advance basename in
                  if strcmp basename "ubuntu-core-launcher" =? 0
                  then true else false
              | NULL => false
              end in
            '(optind, err) ←
              parse_loop (Z.to_nat (argc - 1)) argv l 1 ignore_first_tag;
            match err with
            | Some _ => out args err argcp argvp
            | NULL =>
                let shift : M parse_result :=
                  '(argv, i) ←
                    shift_loop (Z.to_nat (argc - optind - 1)) argv optind 1;
                  argv ← vec_set argv i NULL;
                  out args NULL (Some (argc - optind)) (Some argv) in
                a ← load_args l;
                if negb (is_version_query a) then
                  match security_tag a with
                  | NULL =>
                      out args
                        (sc_error_init SC_ARGS_DOMAIN SC_ARGS_ERR_USAGE
                           "application or hook security tag was not provided")
                        argcp argvp
                  | Some _ =>
                      match executable a with
                      | NULL =>
                          out args
                            (sc_error_init SC_ARGS_DOMAIN SC_ARGS_ERR_USAGE
                               "executable name was not provided")
                            argcp argvp
                      | Some _ => shift
                      end
                  end
                else shift
            end
        end
  | _, _ =>
      out NULL
        (sc_error_init SC_ARGS_DOMAIN 0
           "cannot parse arguments, argc or argv are NULL")
        argcp argvp
  end.

(** ** Accessors *)

Definition sc_args_is_version_query (args : ptr loc) : M bool :=
  match args with
  | NULL => die "cannot obtain version query flag from NULL argument parser"
  | Some l => a ← load_args l; mret (is_version_query a)
  end.

Definition sc_args_is_classic_confinement (args : ptr loc) : M bool :=
  match args with
  | NULL =>
      die "cannot obtain classic confinement flag from NULL argument parser"
  | Some l => a ← load_args l; mret (is_classic_confinement a)
  end.

Definition sc_args_security_tag (args : ptr loc) : M (ptr loc) :=
  match args with
  | NULL => die "cannot obtain security tag from NULL argument parser"
  | Some l => a ← load_args l; mret (security_tag a)
  end.

Definition sc_args_executable (args : ptr loc) : M (ptr loc) :=
  match args with
  | NULL => die "cannot obtain executable from NULL argument parser"
  | Some l => a ← load_args l; mret (executable a)
  end.

(** ** The caller's side *)

(** The count and the vector a process is started with: [argc] strings and
    the terminating [NULL]. *)
Definition process_argc (toks : list string) : ptr Z :=
  Some (Z.of_nat (length toks)).

Definition process_argv (toks : list string) : ptr (ptr vec) :=
  Some (Some ((Some <$> toks) ++ [NULL])).

Definition parse (toks : list string) : M parse_result :=
  sc_nonfatal_parse_args (process_argc toks) (process_argv toks).

(** What the four accessors show of a result, the strings by their bytes. *)
Record view := mk_view {
  v_security_tag : ptr string;
  v_executable : ptr string;
  v_is_version_query : bool;
  v_is_classic_confinement : bool
}.

Definition string_at (p : ptr loc) : M (ptr string) :=
  match p with
  | NULL => mret NULL
  | Some l => s ← load_chars l; mret (Some s)
  end.

Definition observe (args : ptr loc) : M view :=
  t ← sc_args_security_tag args;
  t ← string_at t;
  e ← sc_args_executable args;
  e ← string_at e;
  q ← sc_args_is_version_query args;
  c ← sc_args_is_classic_confinement args;
  mret (mk_view t e q c).

(** A reference that [sc_cleanup_args] may be given: [NULL], or a live
    structure whose strings are live blocks of their own. *)
Definition owned (h : heap) (ref : ptr loc) : Prop :=
  match ref with
  | NULL => True
  | Some l =>
      exists a, h !! l = Some (Args a) /\
        (forall x, security_tag a = Some x -> x <> l /\ is_Some (h !! x)) /\
        (forall x, executable a = Some x -> x <> l /\ is_Some (h !! x)) /\
        (forall x y, security_tag a = Some x -> executable a = Some y -> x <> y)
  end.

(** ** The scan, on values *)

(** Whether [argv[0]] names the legacy launcher, as lines 64-73 compute it. *)
Definition legacy_name (argv0 : string) : bool :=
  match strrchr argv0 "/" with
  | Some basename =>
      if strcmp (advance basename) "ubuntu-core-launcher" =? 0
      then true else false
  | NULL => false
  end.

Definition view0 : view := mk_view NULL NULL false false.

Definition with_tag (s : view) (t : string) : view :=
  mk_view (Some t) (v_executable s)
    (v_is_version_query s) (v_is_classic_confinement s).
Definition with_exe (s : view) (e : string) : view :=
  mk_view (v_security_tag s) (Some e)
    (v_is_version_query s) (v_is_classic_confinement s).
Definition with_version (s : view) : view :=
  mk_view (v_security_tag s) (v_executable s)
    true (v_is_classic_confinement s).
Definition with_classic (s : view) : view :=
  mk_view (v_security_tag s) (v_executable s)
    (v_is_version_query s) true.

(** The scanning loop read off the strings: [toks] are the tokens from
    [argv[optind]] to [argv[argc - 1]], [s] is what the structure holds and
    [ign] is [ignore_first_tag]. The result is the final [optind], the error
    and what the structure holds then. [parse_loop_scan] below shows that
    [parse_loop] computes this. *)
Fixpoint scan (toks : list string) (optind : Z) (s : view) (ign : bool)
  : Z * ptr sc_error * view :=
  match toks with
  | [] => (optind, NULL, s)
  | tok :: rest =>
      if Ascii.eqb (first_char tok) "-" then
        if strcmp tok "--version" =? 0 then (optind, NULL, with_version s)
        else if strcmp tok "--classic" =? 0 then
          scan rest (optind + 1) (with_classic s) ign
        else
          (optind,
           sc_error_init SC_ARGS_DOMAIN SC_ARGS_ERR_USAGE
             ("unrecognized command line option: " +:+ tok),
           s)
      else
        match v_security_tag s with
        | NULL =>
            if ign then scan rest (optind + 1) s false
            else scan rest (optind + 1) (with_tag s tok) ign
        | Some _ =>
            match v_executable s with
            | NULL => (optind, NULL, with_exe s tok)
            | Some _ => scan rest (optind + 1) s ign
            end
        end
  end.

(** The scan of a whole vector [prog :: rest]. *)
Definition scan_argv (toks : list string) : Z * ptr sc_error * view :=
  scan (tail toks) 1 view0 (legacy_name (hd EmptyString toks)).

(** The position at which scanning stopped: the value of [optind] after the
    loop. *)
Definition stop_position (toks : list string) : Z := (scan_argv toks).1.1.
Definition scan_error (toks : list string) : ptr sc_error :=
  (scan_argv toks).1.2.
Definition scan_view (toks : list string) : view := (scan_argv toks).2.

(** Scanning [prog :: pre] runs through all of [pre]: no token of [pre] ends
    the loop, by [break] or by an error. *)
Definition scan_runs_through (prog : string) (pre : list string) : Prop :=
  stop_position (prog :: pre) = 1 + Z.of_nat (length pre).

(** ** The heap of a parse in progress *)

(** [repr h0 l s h]: [h] is [h0] extended with a structure at [l] that shows
    [s] and with the strings that structure owns. *)
Inductive repr (h0 : heap) (l : loc) : view -> heap -> Prop :=
  | repr_none q c :
      h0 !! l = None ->
      repr h0 l (mk_view NULL NULL q c)
        (<[l := Args (mk_args NULL NULL q c)]> h0)
  | repr_tag lt t q c :
      h0 !! l = None -> h0 !! lt = None -> lt <> l ->
      repr h0 l (mk_view (Some t) NULL q c)
        (<[l := Args (mk_args (Some lt) NULL q c)]> (<[lt := Chars t]> h0))
  | repr_both lt le t e q c :
      h0 !! l = None -> h0 !! lt = None -> h0 !! le = None ->
      lt <> l -> le <> l -> lt <> le ->
      repr h0 l (mk_view (Some t) (Some e) q c)
        (<[l := Args (mk_args (Some lt) (Some le) q c)]>
           (<[le := Chars e]> (<[lt := Chars t]> h0))).

(** ** Results *)

Definition usage (msg : string) : sc_error :=
  mk_error SC_ARGS_DOMAIN SC_ARGS_ERR_USAGE msg.

(** The result of a failed call: no handle, the cells as they were. *)
Definition failure (toks : list string) (e : sc_error) : parse_result :=
  mk_result NULL (process_argc toks) (process_argv toks) (Some e).

(** [v'] is the vector of [toks] compacted at position [stop]. *)
Definition compacted (toks : list string) (stop : nat) (v' : vec) : Prop :=
  length v' = S (length toks) /\
  v' !! 0%nat = (Some <$> toks) !! 0%nat /\
  (forall k, (1 <= k < length toks - stop)%nat ->
     v' !! k = (Some <$> toks) !! (stop + k)%nat) /\
  v' !! (length toks - stop)%nat = Some NULL /\
  (forall k, (length toks - stop < k)%nat ->
     v' !! k = ((Some <$> toks) ++ [NULL]) !! k).

(** A successful call on [toks] from the heap [h0]. *)
Definition succeeds (toks : list string) (h0 : heap) : Prop :=
  exists h' v',
    parse toks h0 =
      Ok (mk_result (Some (fresh (dom h0)))
            (Some (Z.of_nat (length toks) - stop_position toks))
            (Some (Some v')) NULL, h') /\
    repr h0 (fresh (dom h0)) (scan_view toks) h' /\
    1 <= stop_position toks < Z.of_nat (length toks) /\
    compacted toks (Z.to_nat (stop_position toks)) v'.

(** ** Further notions *)

(** The blocks a reference owns: the structure and its strings. *)
Definition footprint (h : heap) (ref : ptr loc) : list loc :=
  match ref with
  | NULL => []
  | Some l =>
      match h !! l with
      | Some (Args a) =>
          l :: option_list (security_tag a) ++ option_list (executable a)
      | _ => []
      end
  end.

(** A positional argument: a token whose first byte is not ['-'], the test
    of line 78. *)
Definition positional (tok : string) : bool :=
  negb (Ascii.eqb (first_char tok) "-").

(** The error with which the call ends after a scan that ended with [err]
    and [s]: the one of the scan, or the one of the validation of lines
    124-137. *)
Definition verdict (err : ptr sc_error) (s : view) : ptr sc_error :=
  match err with
  | Some e => Some e
  | NULL =>
      if negb (v_is_version_query s) then
        match v_security_tag s with
        | NULL =>
            Some (usage "application or hook security tag was not provided")
        | Some _ =>
            match v_executable s with
            | NULL => Some (usage "executable name was not provided")
            | Some _ => NULL
            end
        end
      else NULL
  end.

(** * Properties *)

(** ** Stepping through computations *)

Lemma bind_ok {A B} (m : M A) (k : A -> M B) h a h' :
  m h = Ok (a, h') -> (m ≫= k) h = k a h'.
Proof. intros E. unfold mbind, M_bind. by rewrite E. Qed.

Lemma bind_inv {A B} (m : M A) (k : A -> M B) h b h'' :
  (m ≫= k) h = Ok (b, h'') ->
  exists a h', m h = Ok (a, h') /\ k a h' = Ok (b, h'').
Proof.
  unfold mbind, M_bind. destruct (m h) as [[a h']| |]; [|done..].
  intros E. by exists a, h'.
Qed.

Lemma load_args_ok l a (h : heap) :
  h !! l = Some (Args a) -> load_args l h = Ok (a, h).
Proof. intros E. unfold load_args. by rewrite E. Qed.

Lemma store_args_ok l a a' (h : heap) :
  h !! l = Some (Args a) -> store_args l a' h = Ok (tt, <[l := Args a']> h).
Proof. intros E. unfold store_args. by rewrite E. Qed.

Lemma free_ok l (h : heap) :
  is_Some (h !! l) -> free (Some l) h = Ok (tt, delete l h).
Proof. intros [b E]. unfold free. by rewrite E. Qed.

Lemma vec_get_ok (v : vec) i p (h : heap) :
  0 <= i -> v !! Z.to_nat i = Some p -> vec_get (Some v) i h = Ok (p, h).
Proof.
  intros Hi E. unfold vec_get.
  destruct (Z.ltb_spec i 0); [lia|]. by rewrite E.
Qed.

Lemma vec_set_ok (v : vec) i p (h : heap) :
  0 <= i -> (Z.to_nat i < length v)%nat ->
  vec_set (Some v) i p h = Ok (Some (<[Z.to_nat i := p]> v), h).
Proof.
  intros Hi Hl. unfold vec_set.
  destruct (Z.ltb_spec i 0); [lia|].
  by destruct (Nat.ltb_spec (Z.to_nat i) (length v)); [|lia].
Qed.

(** ** Release *)

Lemma free_owned (p : ptr loc) (h : heap) :
  (forall x, p = Some x -> is_Some (h !! x)) ->
  free p h = Ok (tt, from_option (fun x => delete x) id p h).
Proof.
  destruct p as [x|]; [|done].
  intros Hx. by apply free_ok, Hx.
Qed.

Lemma sc_args_free_owned h l a :
  h !! l = Some (Args a) ->
  (forall x, security_tag a = Some x -> x <> l /\ is_Some (h !! x)) ->
  (forall x, executable a = Some x -> x <> l /\ is_Some (h !! x)) ->
  (forall x y, security_tag a = Some x -> executable a = Some y -> x <> y) ->
  sc_args_free (Some l) h =
    Ok (tt, delete l
              (from_option (fun x => delete x) id (executable a)
                 (from_option (fun x => delete x) id (security_tag a) h))).
Proof.
  intros Hl Ht He Hte. unfold sc_args_free.
  rewrite (bind_ok _ _ _ _ _ (load_args_ok _ _ _ Hl)).
  destruct a as [t e q c]; simpl in *.
  rewrite (bind_ok _ _ _ _ _ (free_owned t h (fun x E => proj2 (Ht x E)))).
  set (h1 := from_option _ _ t h).
  assert (Hl1 : h1 !! l = Some (Args (mk_args t e q c))).
  { subst h1. destruct t as [x|]; simpl; [|done].
    rewrite lookup_delete_ne; [done|]. by apply Ht. }
  rewrite (bind_ok _ _ _ _ _ (load_args_ok _ _ _ Hl1)).
  rewrite (bind_ok _ _ _ _ _ (store_args_ok _ _ _ _ Hl1)).
  unfold set_security_tag; simpl.
  set (h2 := <[l := _]> h1).
  assert (Hl2 : h2 !! l = Some (Args (mk_args NULL e q c)))
    by apply lookup_insert_eq.
  rewrite (bind_ok _ _ _ _ _ (load_args_ok _ _ _ Hl2)); simpl.
  assert (He2 : forall x, e = Some x -> is_Some (h2 !! x)).
  { intros x ->. destruct (He x eq_refl) as [Hxl Hx].
    subst h2 h1. rewrite lookup_insert_ne by done.
    destruct t as [y|]; simpl; [|done].
    rewrite lookup_delete_ne; [done|]. by apply Hte. }
  rewrite (bind_ok _ _ _ _ _ (free_owned e h2 He2)).
  set (h3 := from_option _ _ e h2).
  assert (Hl3 : h3 !! l = Some (Args (mk_args NULL e q c))).
  { subst h3. destruct e as [x|]; simpl; [|done].
    rewrite lookup_delete_ne; [done|]. by apply He. }
  rewrite (bind_ok _ _ _ _ _ (load_args_ok _ _ _ Hl3)).
  rewrite (bind_ok _ _ _ _ _ (store_args_ok _ _ _ _ Hl3)).
  rewrite free_ok by (rewrite lookup_insert_eq; eauto).
  do 2 f_equal. apply map_eq. intros i.
  subst h3 h2. destruct (decide (i = l)) as [->|Hi].
  { by rewrite !lookup_delete_eq. }
  rewrite !(lookup_delete_ne _ l) by done.
  rewrite lookup_insert_ne by done.
  destruct e as [x|]; simpl; [|by rewrite lookup_insert_ne].
  destruct (decide (i = x)) as [->|Hix].
  { by rewrite !lookup_delete_eq. }
  rewrite !(lookup_delete_ne _ x) by done. by rewrite lookup_insert_ne.
Qed.

(** A first release returns with the reference [NULL]; a release of a [NULL]
    reference returns and changes nothing. *)
Lemma sc_cleanup_args_NULL (h : heap) : sc_cleanup_args NULL h = Ok (NULL, h).
Proof. done. Qed.

Lemma sc_cleanup_args_owned h ref :
  owned h ref -> exists h', sc_cleanup_args ref h = Ok (NULL, h').
Proof.
  destruct ref as [l|]; [|by eexists].
  intros (a & Hl & Ht & He & Hte). unfold sc_cleanup_args.
  rewrite (bind_ok _ _ _ _ _ (sc_args_free_owned _ _ _ Hl Ht He Hte)).
  by eexists.
Qed.

(** ** The scanning loop computes [scan] *)

Lemma fresh_lookup (h : heap) : h !! fresh (dom h) = None.
Proof. apply not_elem_of_dom, is_fresh. Qed.

Lemma repr_load h0 l s h :
  repr h0 l s h ->
  exists a, h !! l = Some (Args a) /\
    is_version_query a = v_is_version_query s /\
    is_classic_confinement a = v_is_classic_confinement s /\
    (security_tag a = NULL <-> v_security_tag s = NULL) /\
    (executable a = NULL <-> v_executable s = NULL).
Proof.
  destruct 1; eexists; (split; [apply lookup_insert_eq|]); simpl;
    repeat split; congruence.
Qed.

Lemma repr_version h0 l s h a :
  repr h0 l s h -> h !! l = Some (Args a) ->
  repr h0 l (with_version s) (<[l := Args (set_is_version_query a true)]> h).
Proof.
  destruct 1; rewrite lookup_insert_eq; intros [= <-];
    rewrite insert_insert_eq; by constructor.
Qed.

Lemma repr_classic h0 l s h a :
  repr h0 l s h -> h !! l = Some (Args a) ->
  repr h0 l (with_classic s)
    (<[l := Args (set_is_classic_confinement a true)]> h).
Proof.
  destruct 1; rewrite lookup_insert_eq; intros [= <-];
    rewrite insert_insert_eq; by constructor.
Qed.

Lemma repr_tag_new h0 l s h a tok :
  repr h0 l s h -> h !! l = Some (Args a) -> v_security_tag s = NULL ->
  let lt := fresh (dom h) in
  <[lt := Chars tok]> h !! l = Some (Args a) /\
  repr h0 l (with_tag s tok)
    (<[l := Args (set_security_tag a (Some lt))]> (<[lt := Chars tok]> h)).
Proof.
  intros Hr Hl Hs lt. pose proof (fresh_lookup h) as Hf. fold lt in Hf.
  clearbody lt. destruct Hr; simplify_eq/=.
  rewrite lookup_insert_eq in Hl. simplify_eq.
  assert (lt <> l) by (intros ->; by rewrite lookup_insert_eq in Hf).
  rewrite lookup_insert_ne in Hf by done.
  split; [by rewrite lookup_insert_ne, lookup_insert_eq|].
  rewrite (insert_insert_ne _ lt l) by done. rewrite insert_insert_eq.
  by constructor.
Qed.

Lemma repr_exe_new h0 l s h a tok :
  repr h0 l s h -> h !! l = Some (Args a) ->
  v_security_tag s <> NULL -> v_executable s = NULL ->
  let le := fresh (dom h) in
  <[le := Chars tok]> h !! l = Some (Args a) /\
  repr h0 l (with_exe s tok)
    (<[l := Args (set_executable a (Some le))]> (<[le := Chars tok]> h)).
Proof.
  intros Hr Hl Ht Hs le. pose proof (fresh_lookup h) as Hf. fold le in Hf.
  clearbody le. destruct Hr; simplify_eq/=.
  rewrite lookup_insert_eq in Hl. simplify_eq.
  assert (le <> l) by (intros ->; by rewrite lookup_insert_eq in Hf).
  rewrite lookup_insert_ne in Hf by done.
  assert (le <> lt) by (intros ->; by rewrite lookup_insert_eq in Hf).
  rewrite lookup_insert_ne in Hf by done.
  split; [by rewrite lookup_insert_ne, lookup_insert_eq|].
  rewrite (insert_insert_ne _ le l) by done. rewrite insert_insert_eq.
  by constructor.
Qed.

Lemma parse_loop_scan toks :
  forall (v : vec) optind s ign h0 l h,
    repr h0 l s h -> 0 <= optind ->
    (forall k tok, toks !! k = Some tok ->
       v !! (Z.to_nat optind + k)%nat = Some (Some tok)) ->
    exists h',
      parse_loop (length toks) (Some v) l optind ign h =
        Ok (((scan toks optind s ign).1.1, (scan toks optind s ign).1.2), h') /\
      repr h0 l (scan toks optind s ign).2 h'.
Proof.
  induction toks as [|tok rest IH]; intros v optind s ign h0 l h Hr Ho Hv.
  { by exists h. }
  assert (Hrest : forall k tok', rest !! k = Some tok' ->
            v !! (Z.to_nat (optind + 1) + k)%nat = Some (Some tok')).
  { intros k tok' E. replace (Z.to_nat (optind + 1) + k)%nat
      with (Z.to_nat optind + S k)%nat by lia. by apply Hv. }
  assert (H0 : v !! Z.to_nat optind = Some (Some tok)).
  { rewrite <- (Nat.add_0_r (Z.to_nat optind)). by apply Hv. }
  simpl length. cbn [parse_loop scan].
  rewrite (bind_ok _ _ _ _ _ (vec_get_ok _ _ _ h Ho H0)).
  rewrite (bind_ok _ _ _ _ _ (eq_refl : chars (Some tok) h = Ok (tok, h))).
  destruct (repr_load _ _ _ _ Hr) as (a & Hl & Hq & Hc & Ht & He).
  destruct (Ascii.eqb (first_char tok) "-").
  - destruct (strcmp tok "--version" =? 0).
    { rewrite (bind_ok _ _ _ _ _ (load_args_ok _ _ _ Hl)).
      rewrite (bind_ok _ _ _ _ _ (store_args_ok _ _ _ _ Hl)).
      eexists. split; [done|]. by apply repr_version. }
    destruct (strcmp tok "--classic" =? 0).
    { rewrite (bind_ok _ _ _ _ _ (load_args_ok _ _ _ Hl)).
      rewrite (bind_ok _ _ _ _ _ (store_args_ok _ _ _ _ Hl)).
      apply IH; [by apply repr_classic|lia|done]. }
    by exists h.
  - rewrite (bind_ok _ _ _ _ _ (load_args_ok _ _ _ Hl)).
    destruct (security_tag a) as [lt|] eqn:Etag,
             (v_security_tag s) as [t|] eqn:Evt;
      try (by destruct Ht as [Ht1 Ht2];
           first [discriminate Ht1 | discriminate Ht2]).
    + destruct (executable a) as [le|] eqn:Eexe,
               (v_executable s) as [e|] eqn:Eve;
        try (by destruct He as [He1 He2];
           first [discriminate He1 | discriminate He2]).
      { apply IH; [done|lia|done]. }
      assert (Hs : v_security_tag s <> NULL) by congruence.
      destruct (repr_exe_new _ _ _ _ _ tok Hr Hl Hs Eve) as [Hl' Hr'].
      unfold strdup.
      rewrite (bind_ok _ _ _ _ _
        (eq_refl : alloc (Chars tok) h = Ok (Some (fresh (dom h)), _))).
      rewrite (bind_ok _ _ _ _ _ (load_args_ok _ _ _ Hl')).
      rewrite (bind_ok _ _ _ _ _ (store_args_ok _ _ _ _ Hl')).
      rewrite (bind_ok _ _ _ _ _ (load_args_ok _ _ _ (lookup_insert_eq _ _ _))).
      simpl. eexists. split; [done|done].
    + destruct ign.
      { apply IH; [done|lia|done]. }
      destruct (repr_tag_new _ _ _ _ _ tok Hr Hl Evt) as [Hl' Hr'].
      unfold strdup.
      rewrite (bind_ok _ _ _ _ _
        (eq_refl : alloc (Chars tok) h = Ok (Some (fresh (dom h)), _))).
      rewrite (bind_ok _ _ _ _ _ (load_args_ok _ _ _ Hl')).
      rewrite (bind_ok _ _ _ _ _ (store_args_ok _ _ _ _ Hl')).
      rewrite (bind_ok _ _ _ _ _ (load_args_ok _ _ _ (lookup_insert_eq _ _ _))).
      simpl. apply IH; [done|lia|done].
Qed.

(** ** The shifting loop *)

Lemma shift_loop_spec n :
  forall (v : vec) (o i : nat) (h : heap),
    (1 <= o)%nat -> (o + i + n <= length v)%nat ->
    exists v' : vec,
      shift_loop n (Some v) (Z.of_nat o) (Z.of_nat i) h =
        Ok ((Some v', Z.of_nat (i + n)), h) /\
      length v' = length v /\
      forall k, v' !! k =
        if decide (i <= k < i + n)%nat then v !! (o + k)%nat else v !! k.
Proof.
  induction n as [|n IH]; intros v o i h Ho Hlen.
  { exists v. rewrite Nat.add_0_r. split; [done|]. split; [done|].
    intros k. case_decide; [lia|done]. }
  destruct (lookup_lt_is_Some_2 v (o + i)) as [x Hx]; [lia|].
  cbn [shift_loop].
  rewrite (bind_ok _ _ _ _ _ (vec_get_ok v (Z.of_nat o + Z.of_nat i) x h
             ltac:(lia) ltac:(by replace (Z.to_nat (Z.of_nat o + Z.of_nat i))
                                 with (o + i)%nat by lia))).
  rewrite (bind_ok _ _ _ _ _ (vec_set_ok v (Z.of_nat i) x h
             ltac:(lia) ltac:(lia))).
  rewrite Nat2Z.id. replace (Z.of_nat i + 1) with (Z.of_nat (S i)) by lia.
  destruct (IH (<[i := x]> v) o (S i) h Ho) as (v' & E & Hl & Hk).
  { rewrite length_insert. lia. }
  exists v'. split; [by replace (i + S n)%nat with (S i + n)%nat by lia|].
  split; [by rewrite Hl, length_insert|].
  intros k. rewrite Hk.
  destruct (decide (k = i)) as [->|Hki].
  - rewrite decide_False by lia. rewrite decide_True by lia.
    rewrite list_lookup_insert_eq by lia. by rewrite Hx.
  - repeat case_decide; try lia; by rewrite list_lookup_insert_ne by lia.
Qed.

(** ** Releasing what the parser built *)

Lemma repr_owned h0 l s h : repr h0 l s h -> owned h (Some l).
Proof.
  destruct 1; eexists; (split; [apply lookup_insert_eq|]); simpl;
    repeat split; intros; simplify_eq; try done;
    rewrite ?lookup_insert_ne by done; rewrite ?lookup_insert_eq; eauto.
Qed.

Lemma repr_cleanup h0 l s h :
  repr h0 l s h -> sc_cleanup_args (Some l) h = Ok (NULL, h0).
Proof.
  intros Hr. destruct (repr_owned _ _ _ _ Hr) as (a & Hl & Ht & He & Hte).
  unfold sc_cleanup_args.
  rewrite (bind_ok _ _ _ _ _ (sc_args_free_owned _ _ _ Hl Ht He Hte)).
  unfold mret, M_ret. do 2 f_equal.
  destruct Hr; rewrite lookup_insert_eq in Hl; simplify_eq/=;
    apply map_eq; intros i;
    repeat (rewrite lookup_delete || rewrite lookup_insert);
    repeat case_decide; simplify_eq; done.
Qed.

(** ** Facts about [scan] *)

(** The loop either runs to the end of the tokens, and then has set neither
    the version flag nor the executable, or it stops at one of them. *)
Lemma scan_end toks :
  forall optind s ign,
    let r := scan toks optind s ign in
    (r.1.1 = optind + Z.of_nat (length toks) /\ r.1.2 = NULL /\
     v_is_version_query r.2 = v_is_version_query s /\
     v_executable r.2 = v_executable s) \/
    (optind <= r.1.1 < optind + Z.of_nat (length toks)).
Proof.
  induction toks as [|tok rest IH]; intros optind s ign; cbn [scan length].
  { left. simpl. repeat split; lia. }
  assert (Hstep : forall s' ign',
    v_is_version_query s' = v_is_version_query s ->
    v_executable s' = v_executable s ->
    let r := scan rest (optind + 1) s' ign' in
    (r.1.1 = optind + Z.of_nat (S (length rest)) /\ r.1.2 = NULL /\
     v_is_version_query r.2 = v_is_version_query s /\
     v_executable r.2 = v_executable s) \/
    (optind <= r.1.1 < optind + Z.of_nat (S (length rest)))).
  { intros s' ign' Hq He. destruct (IH (optind + 1) s' ign') as [H|H].
    - left. rewrite <- Hq, <- He. destruct H as (-> & ? & ? & ?).
      repeat split; [lia|done..].
    - right. lia. }
  destruct (Ascii.eqb (first_char tok) "-").
  - destruct (strcmp tok "--version" =? 0); [right; simpl; lia|].
    destruct (strcmp tok "--classic" =? 0); [by apply Hstep|].
    right; simpl; lia.
  - destruct (v_security_tag s).
    + destruct (v_executable s) eqn:E; [by apply Hstep|right; simpl; lia].
    + destruct ign; by apply Hstep.
Qed.

(** ** The parser computes [scan], validation and compaction *)

Lemma out_error h0 l s h e argcp argvp :
  repr h0 l s h ->
  out (Some l) (Some e) argcp argvp h =
    Ok (mk_result NULL argcp argvp (Some e), h0).
Proof.
  intros Hr. unfold out.
  by rewrite (bind_ok _ _ _ _ _ (repr_cleanup _ _ _ _ Hr)).
Qed.

Lemma compact_ok toks stop l (h : heap) :
  1 <= stop < Z.of_nat (length toks) ->
  exists v' : vec,
    (shift_loop (Z.to_nat (Z.of_nat (length toks) - stop - 1))
       (Some ((Some <$> toks) ++ [NULL])) stop 1
     ≫= λ '(argv, i),
          vec_set argv i NULL
          ≫= λ argv0, out (Some l) NULL
                         (Some (Z.of_nat (length toks) - stop)) (Some argv0)) h
    = Ok (mk_result (Some l) (Some (Z.of_nat (length toks) - stop))
            (Some (Some v')) NULL, h) /\
    compacted toks (Z.to_nat stop) v'.
Proof.
  intros Hstop. set (v := (Some <$> toks) ++ [NULL]).
  assert (Hlen : length v = S (length toks)).
  { subst v. rewrite length_app, length_fmap. simpl. lia. }
  set (o := Z.to_nat stop). set (n := (length toks - o - 1)%nat).
  destruct (shift_loop_spec n v o 1 h) as (v1 & E & Hl1 & Hk); [lia..|].
  replace (Z.of_nat o) with stop in E by lia.
  replace (Z.to_nat (Z.of_nat (length toks) - stop - 1)) with n by lia.
  change (Z.of_nat 1) with 1 in E.
  rewrite (bind_ok _ _ _ _ _ E).
  rewrite (bind_ok _ _ _ _ _ (vec_set_ok v1 (Z.of_nat (1 + n)) NULL h
             ltac:(lia) ltac:(lia))).
  rewrite Nat2Z.id. replace (1 + n)%nat with (length toks - o)%nat by lia.
  eexists. split; [done|].
  unfold compacted. rewrite length_insert.
  split; [lia|]. split.
  { rewrite list_lookup_insert_ne by lia. rewrite Hk.
    rewrite decide_False by lia. subst v. rewrite lookup_app_l; [done|].
    rewrite length_fmap. lia. }
  split.
  { intros k Hkr. rewrite list_lookup_insert_ne by lia. rewrite Hk.
    rewrite decide_True by lia. subst v. rewrite lookup_app_l; [done|].
    rewrite length_fmap. lia. }
  split.
  { apply list_lookup_insert_eq. lia. }
  intros k Hkr. rewrite list_lookup_insert_ne by lia. rewrite Hk.
  by rewrite decide_False by lia.
Qed.

Lemma parse_scan prog rest h0 :
  let toks := prog :: rest in
  match scan_error toks with
  | Some e => parse toks h0 = Ok (failure toks e, h0)
  | NULL =>
      if v_is_version_query (scan_view toks) then succeeds toks h0
      else
        match v_security_tag (scan_view toks) with
        | NULL =>
            parse toks h0 =
              Ok (failure toks
                    (usage "application or hook security tag was not provided"),
                  h0)
        | Some _ =>
            match v_executable (scan_view toks) with
            | NULL =>
                parse toks h0 =
                  Ok (failure toks (usage "executable name was not provided"),
                      h0)
            | Some _ => succeeds toks h0
            end
        end
  end.
Proof.
  intros toks. set (l := fresh (dom h0)).
  set (v := (Some <$> toks) ++ [NULL]).
  set (h1 := <[l := Args (mk_args NULL NULL false false)]> h0).
  assert (Hr0 : repr h0 l view0 h1) by (constructor; apply fresh_lookup).
  assert (Hv : forall k tok, rest !! k = Some tok ->
            v !! (Z.to_nat 1 + k)%nat = Some (Some tok)).
  { intros k tok E. subst v toks. simpl. rewrite lookup_app_l.
    - by rewrite list_lookup_fmap, E.
    - rewrite length_fmap. by eapply lookup_lt_Some. }
  destruct (parse_loop_scan rest v 1 view0 (legacy_name prog) h0 l h1
              Hr0 ltac:(lia) Hv) as (h' & Eloop & Hr).
  pose proof (scan_end rest 1 view0 (legacy_name prog)) as Hend.
  assert (Eparse : parse toks h0 = sc_nonfatal_parse_args
            (Some (Z.of_nat (S (length rest)))) (Some (Some v)) h0) by done.
  unfold sc_nonfatal_parse_args in Eparse.
  destruct (Z.eqb_spec (Z.of_nat (S (length rest))) 0) as [|_]; [lia|].
  rewrite (bind_ok _ _ _ _ _
    (eq_refl : alloc (Args (mk_args NULL NULL false false)) h0
               = Ok (Some l, h1))) in Eparse.
  rewrite (bind_ok _ _ _ _ _
    (eq_refl : vec_get (Some v) 0 h1 = Ok (Some prog, h1))) in Eparse.
  rewrite (bind_ok _ _ _ _ _
    (eq_refl : chars (Some prog) h1 = Ok (prog, h1))) in Eparse.
  replace (Z.to_nat (Z.of_nat (S (length rest)) - 1)) with (length rest)
    in Eparse by lia.
  fold (legacy_name prog) in Eparse.
  rewrite (bind_ok _ _ _ _ _ Eloop) in Eparse.
  unfold succeeds. unfold scan_error, scan_view, stop_position, scan_argv.
  cbn [tail hd toks]. fold toks.
  destruct (scan rest 1 view0 (legacy_name prog)) as [[stop err] s'].
  cbn [fst snd] in *.
  destruct err as [e|].
  { rewrite Eparse. by eapply out_error. }
  destruct (repr_load _ _ _ _ Hr) as (a & Hl & Hq & Hc & Ht & He).
  rewrite (bind_ok _ _ _ _ _ (load_args_ok _ _ _ Hl)) in Eparse.
  rewrite Hq in Eparse.
  assert (Hshift : v_is_version_query s' = true \/ v_executable s' <> NULL ->
    exists h'0 v',
      parse toks h0 =
        Ok (mk_result (Some l) (Some (Z.of_nat (length toks) - stop))
              (Some (Some v')) NULL, h'0) /\
      repr h0 l s' h'0 /\ 1 <= stop < Z.of_nat (length toks) /\
      compacted toks (Z.to_nat stop) v').
  { intros Hs.
    assert (Hstop : 1 <= stop < Z.of_nat (length toks)).
    { destruct Hend as [(_ & _ & Hq' & He')|H]; [|simpl; lia].
      simpl in Hq', He'. destruct Hs; congruence. }
    destruct (compact_ok toks stop l h' Hstop) as (v' & E & Hcomp).
    exists h', v'. split; [|done].
    destruct (v_is_version_query s'); simpl in Eparse; [by rewrite Eparse|].
    destruct Hs as [|Hs]; [done|].
    destruct (security_tag a), (executable a);
      try (by rewrite Eparse); try (by destruct Hs; apply He).
    destruct Ht as [Ht _]. specialize (Ht eq_refl).
    destruct Hr; simplify_eq/=. }
  destruct (v_is_version_query s'); [by apply Hshift; left|].
  simpl in Eparse.
  destruct (security_tag a) as [lt|], (v_security_tag s') as [t|];
    try (by destruct Ht as [Ht1 Ht2];
           first [discriminate Ht1 | discriminate Ht2]).
  - destruct (executable a) as [le|], (v_executable s') as [x|];
      try (by destruct He as [He1 He2];
           first [discriminate He1 | discriminate He2]).
    + by apply Hshift; right.
    + rewrite Eparse. by eapply out_error.
  - rewrite Eparse. by eapply out_error.
Qed.

Lemma parse_empty h0 :
  parse [] h0 =
    Ok (failure []
          (mk_error SC_ARGS_DOMAIN 0 "cannot parse arguments, argc is zero"),
        h0).
Proof. done. Qed.

(** ** Accessors on a live result *)

Section accessors.
Context (h : heap) (l : loc) (a : sc_args).
Hypothesis Hl : h !! l = Some (Args a).

Lemma sc_args_security_tag_ok :
  sc_args_security_tag (Some l) h = Ok (security_tag a, h).
Proof.
  unfold sc_args_security_tag.
  by rewrite (bind_ok _ _ _ _ _ (load_args_ok _ _ _ Hl)).
Qed.

Lemma sc_args_executable_ok :
  sc_args_executable (Some l) h = Ok (executable a, h).
Proof.
  unfold sc_args_executable.
  by rewrite (bind_ok _ _ _ _ _ (load_args_ok _ _ _ Hl)).
Qed.

Lemma sc_args_is_version_query_ok :
  sc_args_is_version_query (Some l) h = Ok (is_version_query a, h).
Proof.
  unfold sc_args_is_version_query.
  by rewrite (bind_ok _ _ _ _ _ (load_args_ok _ _ _ Hl)).
Qed.

Lemma sc_args_is_classic_confinement_ok :
  sc_args_is_classic_confinement (Some l) h =
    Ok (is_classic_confinement a, h).
Proof.
  unfold sc_args_is_classic_confinement.
  by rewrite (bind_ok _ _ _ _ _ (load_args_ok _ _ _ Hl)).
Qed.

Lemma observe_ok t e :
  string_at (security_tag a) h = Ok (t, h) ->
  string_at (executable a) h = Ok (e, h) ->
  observe (Some l) h =
    Ok (mk_view t e (is_version_query a) (is_classic_confinement a), h).
Proof.
  intros Ht He. unfold observe.
  rewrite (bind_ok _ _ _ _ _ sc_args_security_tag_ok).
  rewrite (bind_ok _ _ _ _ _ Ht).
  rewrite (bind_ok _ _ _ _ _ sc_args_executable_ok).
  rewrite (bind_ok _ _ _ _ _ He).
  rewrite (bind_ok _ _ _ _ _ sc_args_is_version_query_ok).
  by rewrite (bind_ok _ _ _ _ _ sc_args_is_classic_confinement_ok).
Qed.
End accessors.

Lemma string_at_ok l s (h : heap) :
  h !! l = Some (Chars s) -> string_at (Some l) h = Ok (Some s, h).
Proof. intros E. unfold string_at, load_chars, mbind, M_bind. by rewrite E. Qed.

(** On the heap a parse leaves, the accessors show the scanned view. *)
Lemma observe_repr h0 l s h : repr h0 l s h -> observe (Some l) h = Ok (s, h).
Proof.
  destruct 1.
  - by apply (observe_ok _ l (mk_args NULL NULL q c) (lookup_insert_eq _ _ _)).
  - apply (observe_ok _ l (mk_args (Some lt) NULL q c)
             (lookup_insert_eq _ _ _)); [|done].
    apply string_at_ok. rewrite lookup_insert_ne by done.
    apply lookup_insert_eq.
  - apply (observe_ok _ l (mk_args (Some lt) (Some le) q c)
             (lookup_insert_eq _ _ _)); apply string_at_ok.
    + rewrite !lookup_insert_ne by done. apply lookup_insert_eq.
    + rewrite lookup_insert_ne by done. apply lookup_insert_eq.
Qed.

(** Every call on a process vector returns: with a failure that leaves the
    heap as it was, or with a success. *)
Lemma parse_cases toks h :
  (exists e, parse toks h = Ok (failure toks e, h)) \/
  (succeeds toks h /\ scan_error toks = NULL /\
   (v_is_version_query (scan_view toks) = true \/
    exists t e, v_security_tag (scan_view toks) = Some t /\
                v_executable (scan_view toks) = Some e)).
Proof.
  destruct toks as [|prog rest]; [left; eexists; apply parse_empty|].
  pose proof (parse_scan prog rest h) as H. cbn zeta in H.
  destruct (scan_error (prog :: rest)); [by left; eexists|].
  destruct (v_is_version_query (scan_view (prog :: rest))); [by right; eauto|].
  destruct (v_security_tag (scan_view (prog :: rest))); [|by left; eexists].
  destruct (v_executable (scan_view (prog :: rest))); [|by left; eexists].
  right; eauto 10.
Qed.

Lemma parse_success_inv toks h r h' :
  parse toks h = Ok (r, h') -> r_error r = NULL ->
  exists v',
    r = mk_result (Some (fresh (dom h)))
          (Some (Z.of_nat (length toks) - stop_position toks))
          (Some (Some v')) NULL /\
    repr h (fresh (dom h)) (scan_view toks) h' /\
    1 <= stop_position toks < Z.of_nat (length toks) /\
    compacted toks (Z.to_nat (stop_position toks)) v' /\
    scan_error toks = NULL /\
    (v_is_version_query (scan_view toks) = true \/
     exists t e, v_security_tag (scan_view toks) = Some t /\
                 v_executable (scan_view toks) = Some e).
Proof.
  intros E He. destruct (parse_cases toks h) as [[e E']|(Hs & Herr & Hv)].
  { rewrite E' in E. by simplify_eq. }
  destruct Hs as (h'' & v' & E' & Hr & Hstop & Hc).
  rewrite E' in E. simplify_eq. by exists v'.
Qed.

(** ** More facts about [scan] *)

Lemma strcmp_eq a b : (strcmp a b =? 0) = bool_decide (a = b).
Proof.
  unfold strcmp. destruct (String.compare a b) eqn:E.
  - apply String.compare_eq_iff in E. by rewrite bool_decide_eq_true_2.
  - rewrite bool_decide_eq_false_2; [done|]. intros ->.
    pose proof (String.compare_antisym b b) as Ha. by rewrite E in Ha.
  - rewrite bool_decide_eq_false_2; [done|]. intros ->.
    pose proof (String.compare_antisym b b) as Ha. by rewrite E in Ha.
Qed.

(** An unrecognised switch that the scan reaches ends it with the usage
    error that names the switch. *)
Lemma scan_unrecognized pre bad post :
  Ascii.eqb (first_char bad) "-" = true ->
  bad <> "--version" -> bad <> "--classic" ->
  forall optind s ign,
    (scan pre optind s ign).1.1 = optind + Z.of_nat (length pre) ->
    (scan (pre ++ bad :: post) optind s ign).1 =
      (optind + Z.of_nat (length pre),
       Some (usage ("unrecognized command line option: " +:+ bad))).
Proof.
  intros Hdash Hv Hc. induction pre as [|tok pre IH]; intros optind s ign.
  { intros _. cbn [app scan length]. rewrite Hdash, !strcmp_eq.
    rewrite !bool_decide_eq_false_2 by done. simpl. f_equal. lia. }
  cbn [app scan length].
  assert (Hnext : forall s' ign',
    (scan pre (optind + 1) s' ign').1.1 = optind + Z.of_nat (S (length pre)) ->
    (scan (pre ++ bad :: post) (optind + 1) s' ign').1 =
      (optind + Z.of_nat (S (length pre)),
       Some (usage ("unrecognized command line option: " +:+ bad)))).
  { intros s' ign' E. rewrite IH by lia. f_equal. lia. }
  destruct (Ascii.eqb (first_char tok) "-").
  - destruct (strcmp tok "--version" =? 0); [simpl; lia|].
    destruct (strcmp tok "--classic" =? 0); [apply Hnext|simpl; lia].
  - destruct (v_security_tag s).
    + destruct (v_executable s); [apply Hnext|simpl; lia].
    + destruct ign; apply Hnext.
Qed.

Lemma scan_lower toks optind s ign : optind <= (scan toks optind s ign).1.1.
Proof. destruct (scan_end toks optind s ign) as [(-> & _)|?]; lia. Qed.

(** The classic flag is set exactly by a [--classic] before the position at
    which the scan stops. *)
Lemma scan_classic toks :
  forall optind s ign,
    let r := scan toks optind s ign in
    v_is_classic_confinement r.2 = true <->
    v_is_classic_confinement s = true \/
    "--classic" ∈ take (Z.to_nat (r.1.1 - optind)) toks.
Proof.
  induction toks as [|tok rest IH]; intros optind s ign; cbn [scan].
  { simpl. rewrite take_nil, elem_of_nil. tauto. }
  assert (Hnext : forall s' ign',
    let r := scan rest (optind + 1) s' ign' in
    (v_is_classic_confinement s' = true <->
     v_is_classic_confinement s = true \/ "--classic" = tok) ->
    v_is_classic_confinement r.2 = true <->
    v_is_classic_confinement s = true \/
    "--classic" ∈ take (Z.to_nat (r.1.1 - optind)) (tok :: rest)).
  { intros s' ign' r Hs. subst r. rewrite IH.
    pose proof (scan_lower rest (optind + 1) s' ign').
    replace (Z.to_nat ((scan rest (optind + 1) s' ign').1.1 - optind))
      with (S (Z.to_nat ((scan rest (optind + 1) s' ign').1.1 - (optind + 1))))
      by lia.
    cbn [take]. rewrite elem_of_cons, Hs. tauto. }
  assert (Hstop : forall s',
    v_is_classic_confinement s' = v_is_classic_confinement s ->
    v_is_classic_confinement s' = true <->
    v_is_classic_confinement s = true \/
    "--classic" ∈ take (Z.to_nat (optind - optind)) (tok :: rest)).
  { intros s' ->. rewrite Z.sub_diag. simpl. rewrite elem_of_nil. tauto. }
  destruct (Ascii.eqb (first_char tok) "-") eqn:Edash.
  - destruct (strcmp tok "--version" =? 0); [by apply Hstop|].
    rewrite strcmp_eq. case_bool_decide as Ec.
    + apply Hnext. simpl. intuition congruence.
    + by apply Hstop.
  - assert ("--classic" <> tok) by (by intros <-).
    destruct (v_security_tag s).
    + destruct (v_executable s); [|by apply Hstop].
      apply Hnext. tauto.
    + destruct ign; apply Hnext; simpl; tauto.
Qed.

(** The strings a scan stores are positional tokens it has read. *)
Lemma scan_strings toks :
  forall optind s ign,
    let r := scan toks optind s ign in
    (forall t, v_security_tag r.2 = Some t ->
       v_security_tag s = Some t \/
       (t ∈ toks /\ Ascii.eqb (first_char t) "-" = false)) /\
    (forall e, v_executable r.2 = Some e ->
       v_executable s = Some e \/
       (e ∈ toks /\ Ascii.eqb (first_char e) "-" = false)).
Proof.
  induction toks as [|tok rest IH]; intros optind s ign; cbn [scan].
  { simpl. tauto. }
  assert (Hnext : forall s' ign',
    (forall t, v_security_tag s' = Some t ->
       v_security_tag s = Some t \/
       (t = tok /\ Ascii.eqb (first_char t) "-" = false)) ->
    v_executable s' = v_executable s ->
    let r := scan rest (optind + 1) s' ign' in
    (forall t, v_security_tag r.2 = Some t ->
       v_security_tag s = Some t \/
       (t ∈ tok :: rest /\ Ascii.eqb (first_char t) "-" = false)) /\
    (forall e, v_executable r.2 = Some e ->
       v_executable s = Some e \/
       (e ∈ tok :: rest /\ Ascii.eqb (first_char e) "-" = false))).
  { intros s' ign' Ht He r. subst r.
    destruct (IH (optind + 1) s' ign') as [IHt IHe]. split.
    - intros t E. rewrite elem_of_cons.
      destruct (IHt t E) as [E'|[? ?]]; [|tauto].
      destruct (Ht t E') as [|[-> ?]]; tauto.
    - intros e E. rewrite elem_of_cons, <- He.
      destruct (IHe e E); tauto. }
  assert (Hstay : forall t : string, v_security_tag s = Some t ->
            v_security_tag s = Some t \/
            (t = tok /\ Ascii.eqb (first_char t) "-" = false)) by tauto.
  destruct (Ascii.eqb (first_char tok) "-") eqn:Edash.
  - destruct (strcmp tok "--version" =? 0); [simpl; tauto|].
    destruct (strcmp tok "--classic" =? 0); [|simpl; tauto].
    by apply Hnext.
  - destruct (v_security_tag s) eqn:Et.
    + destruct (v_executable s) eqn:Ee.
      * apply Hnext; [|done]. intros t E. left. congruence.
      * simpl. rewrite Et. split; [tauto|].
        intros e [= <-]. right. split; [by left|done].
    + destruct ign; apply Hnext; simpl; try done; intros t E.
      * congruence.
      * injection E as <-. by right.
Qed.

(** ** From the scan to the call *)

Lemma parse_of_scan_error prog rest stop e s h :
  scan_argv (prog :: rest) = (stop, Some e, s) ->
  parse (prog :: rest) h = Ok (failure (prog :: rest) e, h).
Proof.
  intros Hs. pose proof (parse_scan prog rest h) as H.
  unfold scan_error in H. by rewrite Hs in H.
Qed.

Lemma parse_of_scan_success prog rest stop s h :
  scan_argv (prog :: rest) = (stop, NULL, s) ->
  v_is_version_query s = true \/
    (is_Some (v_security_tag s) /\ is_Some (v_executable s)) ->
  exists v' h',
    parse (prog :: rest) h =
      Ok (mk_result (Some (fresh (dom h)))
            (Some (Z.of_nat (length (prog :: rest)) - stop))
            (Some (Some v')) NULL, h') /\
    observe (Some (fresh (dom h))) h' = Ok (s, h') /\
    compacted (prog :: rest) (Z.to_nat stop) v'.
Proof.
  intros Hs Hv. pose proof (parse_scan prog rest h) as H.
  unfold succeeds in H. unfold scan_error, scan_view, stop_position in H.
  rewrite Hs in H. cbn [fst snd] in H.
  assert (Hsucc : exists h' v',
    parse (prog :: rest) h =
      Ok (mk_result (Some (fresh (dom h)))
            (Some (Z.of_nat (length (prog :: rest)) - stop))
            (Some (Some v')) NULL, h') /\
    repr h (fresh (dom h)) s h' /\
    1 <= stop < Z.of_nat (length (prog :: rest)) /\
    compacted (prog :: rest) (Z.to_nat stop) v').
  { destruct (v_is_version_query s); [done|].
    destruct Hv as [|[[t Et] [e Ee]]]; [done|]. by rewrite Et, Ee in H. }
  destruct Hsucc as (h' & v' & E & Hr & _ & Hc).
  exists v', h'. split; [done|]. split; [by eapply observe_repr|done].
Qed.

(** * The claims *)

(** C1. For every [tag] and [exe] that do not begin with ['-'], parsing
    [["prog"; tag; exe]] returns a result and no error; the result shows
    [tag] as its security tag, [exe] as its executable, and both flags
    false. *)
Theorem parse_tag_exe (tag exe : string) (h : heap) :
  first_char tag <> "-"%char -> first_char exe <> "-"%char ->
  exists r h',
    parse ["prog"; tag; exe] h = Ok (r, h') /\
    r_error r = NULL /\
    observe (r_args r) h' =
      Ok (mk_view (Some tag) (Some exe) false false, h').
Proof.
  intros Ht He. apply Ascii.eqb_neq in Ht, He.
  assert (Hs : scan_argv ["prog"; tag; exe] =
               (2, NULL, mk_view (Some tag) (Some exe) false false)).
  { unfold scan_argv. cbn [tail hd]. change (legacy_name "prog") with false.
    cbn [scan]. rewrite Ht. cbn. by rewrite He. }
  destruct (parse_of_scan_success _ _ _ _ h Hs) as (v' & h' & E & Ho & _).
  { right. by split; eexists. }
  eexists _, h'. split; [exact E|]. by split.
Qed.

Lemma parse_tag_exe_witness :
  exists r h',
    parse ["prog"; "tag"; "exe"] ∅ = Ok (r, h') /\
    r_error r = NULL /\
    observe (r_args r) h' =
      Ok (mk_view (Some "tag") (Some "exe") false false, h').
Proof. apply (parse_tag_exe "tag" "exe" ∅); discriminate. Defined.

(** C3. For every list [rest] of trailing tokens, parsing
    ["prog" :: "--version" :: rest] returns a result and no error. The
    result shows the version query set and, whatever [rest] holds, no
    security tag, no executable and the classic flag false: no token of
    [rest] is stored, and the absence of tag and executable is not an
    error. *)
Theorem parse_version_first (rest : list string) (h : heap) :
  exists r h',
    parse ("prog" :: "--version" :: rest) h = Ok (r, h') /\
    r_error r = NULL /\
    observe (r_args r) h' = Ok (mk_view NULL NULL true false, h').
Proof.
  assert (Hs : scan_argv ("prog" :: "--version" :: rest) =
               (1, NULL, mk_view NULL NULL true false)) by done.
  destruct (parse_of_scan_success _ _ _ _ h Hs) as (v' & h' & E & Ho & _).
  { by left. }
  eexists _, h'. split; [exact E|]. by split.
Qed.

(** C4. When the scan of [prog :: pre] runs through all of [pre] and the
    next token [bad] begins with ['-'] and is neither ["--version"] nor
    ["--classic"], the call fails with the usage error whose message is
    ["unrecognized command line option: "] followed by [bad], whatever
    tokens [post] follow; nothing is returned and the heap is as before. *)
Theorem parse_unrecognized_option
    (prog : string) (pre : list string) (bad : string) (post : list string)
    (h : heap) :
  scan_runs_through prog pre ->
  first_char bad = "-"%char ->
  bad <> "--version" -> bad <> "--classic" ->
  parse (prog :: pre ++ bad :: post) h =
    Ok (failure (prog :: pre ++ bad :: post)
          (mk_error SC_ARGS_DOMAIN SC_ARGS_ERR_USAGE
             ("unrecognized command line option: " +:+ bad)),
        h).
Proof.
  intros Hrun Hdash Hv Hc.
  apply Ascii.eqb_eq in Hdash.
  pose proof (scan_unrecognized pre bad post Hdash Hv Hc 1 view0
                (legacy_name prog) Hrun) as Hs.
  destruct (scan (pre ++ bad :: post) 1 view0 (legacy_name prog))
    as [[stop err] s] eqn:E.
  cbn [fst] in Hs. simplify_eq.
  by eapply parse_of_scan_error.
Qed.

Lemma parse_unrecognized_option_witness :
  parse ["prog"; "--classic"; "tag"; "-"; "exe"] ∅ =
    Ok (failure ["prog"; "--classic"; "tag"; "-"; "exe"]
          (mk_error SC_ARGS_DOMAIN SC_ARGS_ERR_USAGE
             "unrecognized command line option: -"),
        ∅).
Proof.
  apply (parse_unrecognized_option "prog" ["--classic"; "tag"] "-" ["exe"] ∅);
    [reflexivity|reflexivity|discriminate|discriminate].
Defined.

(** C5. When the scan of [prog :: rest] ends without an error and with the
    version query unset, the call fails with a usage error: the one for the
    missing security tag when no security tag was stored (whether or not an
    executable was), and otherwise the one for the missing executable when
    no executable was stored. *)
Theorem parse_missing_arguments
    (prog : string) (rest : list string) (h : heap) :
  let toks := prog :: rest in
  scan_error toks = NULL ->
  v_is_version_query (scan_view toks) = false ->
  (v_security_tag (scan_view toks) = NULL ->
   parse toks h =
     Ok (failure toks
           (mk_error SC_ARGS_DOMAIN SC_ARGS_ERR_USAGE
              "application or hook security tag was not provided"),
         h)) /\
  (v_security_tag (scan_view toks) <> NULL ->
   v_executable (scan_view toks) = NULL ->
   parse toks h =
     Ok (failure toks
           (mk_error SC_ARGS_DOMAIN SC_ARGS_ERR_USAGE
              "executable name was not provided"),
         h)).
Proof.
  intros toks Herr Hq. pose proof (parse_scan prog rest h) as H.
  cbn zeta in H. fold toks in H. rewrite Herr, Hq in H.
  destruct (v_security_tag (scan_view toks)) as [t|].
  - split; [done|]. intros _ He. by rewrite He in H.
  - split; [done|]. by intros [].
Qed.

Lemma parse_missing_arguments_witness :
  parse ["prog"] ∅ =
    Ok (failure ["prog"]
          (mk_error SC_ARGS_DOMAIN SC_ARGS_ERR_USAGE
             "application or hook security tag was not provided"),
        ∅) /\
  parse ["prog"; "tag"] ∅ =
    Ok (failure ["prog"; "tag"]
          (mk_error SC_ARGS_DOMAIN SC_ARGS_ERR_USAGE
             "executable name was not provided"),
        ∅).
Proof.
  split.
  - apply (parse_missing_arguments "prog" [] ∅); reflexivity.
  - apply (parse_missing_arguments "prog" ["tag"] ∅);
      [reflexivity|reflexivity|discriminate|reflexivity].
Defined.

Lemma compacted_take prog rest stop (v' : vec) :
  compacted (prog :: rest) stop v' ->
  (1 <= stop < length (prog :: rest))%nat ->
  take (S (length (prog :: rest) - stop)) v' =
    Some prog :: (Some <$> drop (S stop) (prog :: rest)) ++ [NULL].
Proof.
  set (toks := prog :: rest). set (n := (length toks - stop)%nat).
  intros (Hlen & H0 & Hmid & Hn & _) Hstop. fold n in Hmid, Hn.
  apply list_eq. intros k.
  destruct (decide (k = 0%nat)) as [->|Hk0].
  { by rewrite lookup_take_lt by lia. }
  rewrite lookup_cons_ne_0 by done.
  destruct (decide (k < n)%nat) as [Hkn|Hkn].
  - rewrite lookup_take_lt by lia. rewrite Hmid by lia.
    rewrite lookup_app_l by (rewrite length_fmap, length_drop; lia).
    rewrite !list_lookup_fmap, lookup_drop. do 2 f_equal. lia.
  - destruct (decide (k = n)) as [->|Hkn'].
    + rewrite lookup_take_lt by lia. rewrite Hn.
      rewrite lookup_app_r by (rewrite length_fmap, length_drop; lia).
      rewrite length_fmap, length_drop.
      by replace (pred n - (length toks - S stop))%nat with 0%nat by lia.
    + rewrite lookup_take_ge by lia. symmetry. apply lookup_ge_None_2.
      rewrite length_app, length_fmap, length_drop.
      subst n toks. simpl in *. lia.
Qed.

(** What a successful call shows is the view of the scan. *)
Lemma observe_success toks h r h' v :
  parse toks h = Ok (r, h') -> r_error r = NULL ->
  observe (r_args r) h' = Ok (v, h') -> v = scan_view toks.
Proof.
  intros E He Ho.
  destruct (parse_success_inv _ _ _ _ E He) as (v' & -> & Hr & _).
  simpl in Ho. rewrite (observe_repr _ _ _ _ Hr) in Ho. by simplify_eq.
Qed.

(** C6, as the code has it. For every process vector on which parsing
    succeeds, the classic flag of the result is true if and only if
    ["--classic"] is one of the tokens before the position at which scanning
    stopped, that is one of [argv[1]] to [argv[optind - 1]]. *)
Theorem classic_iff_scanned
    (toks : list string) (h : heap) (r : parse_result) (h' : heap) (v : view) :
  parse toks h = Ok (r, h') -> r_error r = NULL ->
  observe (r_args r) h' = Ok (v, h') ->
  v_is_classic_confinement v = true <->
  "--classic" ∈ take (Z.to_nat (stop_position toks - 1)) (tail toks).
Proof.
  intros E He Ho. rewrite (observe_success _ _ _ _ _ E He Ho).
  unfold scan_view, stop_position, scan_argv.
  rewrite scan_classic. simpl. intuition discriminate.
Qed.

Lemma classic_iff_scanned_witness :
  true = true <->
  "--classic" ∈
    take (Z.to_nat (stop_position ["prog"; "--classic"; "tag"; "exe"] - 1))
      (tail ["prog"; "--classic"; "tag"; "exe"]).
Proof.
  eapply (classic_iff_scanned ["prog"; "--classic"; "tag"; "exe"] ∅ _ _
            (mk_view (Some "tag") (Some "exe") false true));
    [vm_compute; reflexivity|reflexivity|vm_compute; reflexivity].
Defined.

(** C6, as stated, fails: a ["--classic"] after the executable is in
    [argv[1..]], the call succeeds and the classic flag is false. *)
Lemma classic_anywhere_counterexample :
  exists r h' v,
    parse ["prog"; "tag"; "exe"; "--classic"] ∅ = Ok (r, h') /\
    r_error r = NULL /\
    observe (r_args r) h' = Ok (v, h') /\
    "--classic" ∈ tail ["prog"; "tag"; "exe"; "--classic"] /\
    v_is_classic_confinement v = false.
Proof.
  destruct (parse_of_scan_success "prog" ["tag"; "exe"; "--classic"] 2
              (mk_view (Some "tag") (Some "exe") false false) ∅ eq_refl)
    as (v' & h' & E & Ho & _).
  { right. by split; eexists. }
  eexists _, h', _. split; [exact E|]. split; [done|]. split; [exact Ho|].
  split; [|done]. simpl. rewrite !elem_of_cons. tauto.
Qed.

(** C7, as the code has it. For every process vector on which parsing
    succeeds with the version query unset, the security tag and the
    executable are both set, and each is one of the tokens of [argv[1..]];
    so they are not empty when no token of [argv[1..]] is. *)
Theorem parse_strings_set
    (toks : list string) (h : heap) (r : parse_result) (h' : heap) (v : view) :
  parse toks h = Ok (r, h') -> r_error r = NULL ->
  observe (r_args r) h' = Ok (v, h') ->
  v_is_version_query v = false ->
  exists t e,
    v_security_tag v = Some t /\ v_executable v = Some e /\
    t ∈ tail toks /\ e ∈ tail toks /\
    (EmptyString ∉ tail toks -> t <> EmptyString /\ e <> EmptyString).
Proof.
  intros E He Ho Hq. rewrite (observe_success _ _ _ _ _ E He Ho) in *.
  destruct (parse_success_inv _ _ _ _ E He)
    as (v' & _ & _ & _ & _ & _ & [Hq'|(t & e & Et & Ee)]); [congruence|].
  destruct (scan_strings (tail toks) 1 view0
              (legacy_name (hd EmptyString toks))) as [Ht' He'].
  destruct (Ht' t Et) as [|[Ht _]]; [done|].
  destruct (He' e Ee) as [|[Hex _]]; [done|].
  exists t, e. repeat split; try done; by intros ->.
Qed.

Lemma parse_strings_set_witness :
  exists t e,
    Some "tag" = Some t /\ Some "exe" = Some e /\
    t ∈ tail ["prog"; "tag"; "exe"] /\ e ∈ tail ["prog"; "tag"; "exe"] /\
    (EmptyString ∉ tail ["prog"; "tag"; "exe"] ->
     t <> EmptyString /\ e <> EmptyString).
Proof.
  eapply (parse_strings_set ["prog"; "tag"; "exe"] ∅ _ _
            (mk_view (Some "tag") (Some "exe") false false));
    [vm_compute; reflexivity|reflexivity|vm_compute; reflexivity|reflexivity].
Defined.

(** C7, as stated, fails: empty tokens are positional arguments, the call
    succeeds with the version query unset and both strings empty. *)
Lemma empty_strings_counterexample :
  exists r h',
    parse ["prog"; ""; ""] ∅ = Ok (r, h') /\
    r_error r = NULL /\
    observe (r_args r) h' =
      Ok (mk_view (Some EmptyString) (Some EmptyString) false false, h').
Proof.
  destruct (parse_of_scan_success "prog" [""; ""] 2
              (mk_view (Some "") (Some "") false false) ∅ eq_refl)
    as (v' & h' & E & Ho & _).
  { right. by split; eexists. }
  eexists _, h'. split; [exact E|]. by split.
Qed.

(** C8. For every process vector [toks] on which parsing succeeds, with
    [stop] the position at which scanning stopped: the count written back
    is the original count minus [stop]; the vector written back still has
    the program name at index 0, then the tokens strictly after [stop] in
    their order, then [NULL]. *)
Theorem parse_compacts_argv
    (toks : list string) (h : heap) (r : parse_result) (h' : heap) :
  parse toks h = Ok (r, h') -> r_error r = NULL ->
  let stop := Z.to_nat (stop_position toks) in
  exists (prog : string) (v' : vec),
    toks !! 0%nat = Some prog /\
    (1 <= stop < length toks)%nat /\
    r_argc r = Some (Z.of_nat (length toks) - Z.of_nat stop) /\
    r_argv r = Some (Some v') /\
    take (S (length toks - stop)) v' =
      Some prog :: (Some <$> drop (S stop) toks) ++ [NULL].
Proof.
  intros E He stop.
  destruct (parse_success_inv _ _ _ _ E He)
    as (v' & -> & _ & Hstop & Hc & _).
  destruct toks as [|prog rest]; [simpl in Hstop; lia|].
  exists prog, v'. split; [done|]. split; [lia|].
  split; [simpl; do 2 f_equal; lia|]. split; [done|].
  apply compacted_take; [done|lia].
Qed.

Lemma parse_compacts_argv_witness :
  exists (prog : string) (v' : vec),
    ["prog"; "tag"; "exe"; "extra1"; "extra2"] !! 0%nat = Some prog /\
    (1 <= 2 < 5)%nat /\
    Some (5 - 2) = Some (5 - 2) /\
    Some (Some [Some "prog"; Some "extra1"; Some "extra2"; NULL;
                Some "extra2"; NULL]) = Some (Some v') /\
    take 4 v' = [Some prog; Some "extra1"; Some "extra2"; NULL].
Proof.
  eapply (parse_compacts_argv ["prog"; "tag"; "exe"; "extra1"; "extra2"] ∅
            (mk_result _ _ _ _));
    [vm_compute; reflexivity|reflexivity].
Defined.

(** ** Failure, for every input *)

Lemma mret_inv {A} (a b : A) (h h' : heap) :
  (mret a : M A) h = Ok (b, h') -> a = b /\ h = h'.
Proof. by intros [= -> ->]. Qed.

Lemma sc_cleanup_args_inv ref h p h' :
  sc_cleanup_args ref h = Ok (p, h') -> p = NULL.
Proof.
  unfold sc_cleanup_args. intros E.
  apply bind_inv in E as (? & ? & _ & E). by apply mret_inv in E as [<- _].
Qed.

Lemma out_inv args err argcp argvp h r h' :
  out args err argcp argvp h = Ok (r, h') ->
  r_argc r = argcp /\ r_argv r = argvp /\ r_error r = err /\
  r_args r = match err with Some _ => NULL | NULL => args end.
Proof.
  unfold out. intros E. apply bind_inv in E as (a & h1 & E1 & E).
  apply mret_inv in E as [<- _]. simpl. repeat split.
  destruct err.
  - by apply sc_cleanup_args_inv in E1.
  - by apply mret_inv in E1 as [-> _].
Qed.

(** Whatever it is given, a call that returns either returns a handle and
    no error, or no handle and an error with the two cells untouched. *)
Lemma sc_nonfatal_parse_args_inv argcp argvp h r h' :
  sc_nonfatal_parse_args argcp argvp h = Ok (r, h') ->
  (is_Some (r_args r) /\ r_error r = NULL) \/
  (r_args r = NULL /\ is_Some (r_error r) /\
   r_argc r = argcp /\ r_argv r = argvp).
Proof.
  unfold sc_nonfatal_parse_args. intros E.
  assert (Hfail : forall args e h0,
    out args (Some e) argcp argvp h0 = Ok (r, h') ->
    (is_Some (r_args r) /\ r_error r = NULL) \/
    (r_args r = NULL /\ is_Some (r_error r) /\
     r_argc r = argcp /\ r_argv r = argvp)).
  { intros args e h0 E0. apply out_inv in E0 as (-> & -> & -> & ->).
    right. eauto. }
  destruct argcp as [argc|]; [|destruct argvp; by eapply Hfail].
  destruct argvp as [argv|]; [|by eapply Hfail].
  destruct (argc =? 0); [by eapply Hfail|].
  apply bind_inv in E as (args & h1 & Ea & E).
  injection Ea as <- <-.
  apply bind_inv in E as (p & h2 & _ & E).
  apply bind_inv in E as (argv0 & h3 & _ & E).
  apply bind_inv in E as ([optind err] & h4 & _ & E).
  destruct err as [e|]; [by eapply Hfail|].
  assert (Hshift :
    (shift_loop (Z.to_nat (argc - optind - 1)) argv optind 1
     ≫= λ '(argv1, i),
          vec_set argv1 i NULL
          ≫= λ argv2, out (Some (fresh (dom h))) NULL
                         (Some (argc - optind)) (Some argv2)) h4
    = Ok (r, h') ->
    (is_Some (r_args r) /\ r_error r = NULL) \/
    (r_args r = NULL /\ is_Some (r_error r) /\
     r_argc r = Some argc /\ r_argv r = Some argv)).
  { intros E0. apply bind_inv in E0 as ([argv1 i] & h5 & _ & E0).
    apply bind_inv in E0 as (argv2 & h6 & _ & E0).
    apply out_inv in E0 as (_ & _ & -> & ->). left. eauto. }
  apply bind_inv in E as (a & h5 & El & E).
  assert (h5 = h4) as ->.
  { unfold load_args in El. by destruct (h4 !! _) as [[]|]; simplify_eq. }
  destruct (negb (is_version_query a)); [|by apply Hshift].
  destruct (security_tag a); [|by eapply Hfail].
  destruct (executable a); [by apply Hshift|by eapply Hfail].
Qed.

(** C9. For every input, when the call returns without a handle or with an
    error, it returns both without a handle and with an error, and the
    caller's argument-count cell and argument-vector cell hold what they
    held before the call. *)
Theorem parse_failure_keeps_cells
    (argcp : ptr Z) (argvp : ptr (ptr vec)) (h : heap)
    (r : parse_result) (h' : heap) :
  sc_nonfatal_parse_args argcp argvp h = Ok (r, h') ->
  r_args r = NULL \/ r_error r <> NULL ->
  r_args r = NULL /\ (exists e, r_error r = Some e) /\
  r_argc r = argcp /\ r_argv r = argvp.
Proof.
  intros E Hf.
  destruct (sc_nonfatal_parse_args_inv _ _ _ _ _ E)
    as [[[l Hl] He]|(Hl & [e He] & Hc & Hv)].
  - destruct Hf; congruence.
  - eauto 10.
Qed.

Lemma parse_failure_keeps_cells_witness :
  let toks := ["prog"; "tag"; "--bogus"; "exe"] in
  let r := failure toks (usage "unrecognized command line option: --bogus") in
  r_args r = NULL /\ (exists e, r_error r = Some e) /\
  r_argc r = process_argc toks /\ r_argv r = process_argv toks.
Proof.
  intros toks r.
  apply (parse_failure_keeps_cells (process_argc toks) (process_argv toks)
           ∅ r ∅); [vm_compute; reflexivity|left; reflexivity].
Defined.

(** The two defensive failures: a [NULL] handle and a count of zero. *)
Lemma sc_nonfatal_parse_args_NULL argcp argvp h :
  argcp = NULL \/ argvp = NULL ->
  sc_nonfatal_parse_args argcp argvp h =
    Ok (mk_result NULL argcp argvp
          (Some (mk_error SC_ARGS_DOMAIN 0
                   "cannot parse arguments, argc or argv are NULL")), h).
Proof. intros [-> | ->]; [done|by destruct argcp]. Qed.

Lemma sc_nonfatal_parse_args_zero argv h :
  sc_nonfatal_parse_args (Some 0) (Some argv) h =
    Ok (mk_result NULL (Some 0) (Some argv)
          (Some (mk_error SC_ARGS_DOMAIN 0
                   "cannot parse arguments, argc is zero")), h).
Proof. done. Qed.

(** What a call on a process vector returns may be given to
    [sc_cleanup_args]. *)
Lemma parse_result_owned toks h r h' :
  parse toks h = Ok (r, h') -> owned h' (r_args r).
Proof.
  intros E. destruct (parse_cases toks h) as [[e E']|[Hs _]].
  - rewrite E' in E. by simplify_eq.
  - destruct Hs as (h'' & v' & E' & Hr & _). rewrite E' in E. simplify_eq.
    by eapply repr_owned.
Qed.

(** Every call on a process vector returns, and a failed one leaves the
    heap as it found it: what was built is released. *)
Lemma parse_total toks h : exists r h', parse toks h = Ok (r, h').
Proof.
  destruct (parse_cases toks h) as [[e E]|[(h' & v' & E & _) _]]; eauto.
Qed.

Lemma parse_failure_heap toks h r h' :
  parse toks h = Ok (r, h') -> r_error r <> NULL -> h' = h.
Proof.
  intros E He. destruct (parse_cases toks h) as [[e E']|[Hs _]].
  - rewrite E' in E. by simplify_eq.
  - destruct Hs as (h'' & v' & E' & _). rewrite E' in E. by simplify_eq.
Qed.

(** ** The legacy name *)

Lemma strrchr_path dir :
  strrchr (dir +:+ "/ubuntu-core-launcher") "/" = Some "/ubuntu-core-launcher".
Proof. induction dir as [|a dir IH]; [done|]. simpl. by rewrite IH. Qed.

Lemma legacy_name_path dir :
  legacy_name (dir +:+ "/ubuntu-core-launcher") = true.
Proof. unfold legacy_name. by rewrite strrchr_path. Qed.

(** Called through a path that ends in [/ubuntu-core-launcher], the parser
    drops the first positional argument: the second becomes the security tag
    and the third the executable. *)
Lemma legacy_path_discards_first_positional dir p1 tag exe h :
  first_char p1 <> "-"%char -> first_char tag <> "-"%char ->
  first_char exe <> "-"%char ->
  exists r h',
    parse [dir +:+ "/ubuntu-core-launcher"; p1; tag; exe] h = Ok (r, h') /\
    r_error r = NULL /\
    observe (r_args r) h' =
      Ok (mk_view (Some tag) (Some exe) false false, h').
Proof.
  intros H1 Ht He. apply Ascii.eqb_neq in H1, Ht, He.
  assert (Hs : scan_argv [dir +:+ "/ubuntu-core-launcher"; p1; tag; exe] =
               (3, NULL, mk_view (Some tag) (Some exe) false false)).
  { unfold scan_argv. cbn [tail hd]. rewrite legacy_name_path.
    cbn [scan]. rewrite H1. cbn. rewrite Ht. cbn. by rewrite He. }
  destruct (parse_of_scan_success _ _ _ _ h Hs) as (v' & h' & E & Ho & _).
  { right. by split; eexists. }
  eexists _, h'. split; [exact E|]. by split.
Qed.

(** C2, at the input on which the code departs from it. Called as
    ["ubuntu-core-launcher"], a name with no directory in front,
    [strrchr] finds no ['/'] and the legacy name is not looked for: the
    first positional argument is stored as the security tag and the second
    as the executable. *)
Theorem legacy_bare_name_keeps_first_positional :
  legacy_name "ubuntu-core-launcher" = false /\
  exists r h',
    parse ["ubuntu-core-launcher"; "legacy-tag"; "tag"; "exe"] ∅
      = Ok (r, h') /\
    r_error r = NULL /\
    observe (r_args r) h' =
      Ok (mk_view (Some "legacy-tag") (Some "tag") false false, h').
Proof.
  split; [done|].
  destruct (parse_of_scan_success "ubuntu-core-launcher"
              ["legacy-tag"; "tag"; "exe"] 2
              (mk_view (Some "legacy-tag") (Some "tag") false false)
              ∅ eq_refl)
    as (v' & h' & E & Ho & _).
  { right. by split; eexists. }
  eexists _, h'. split; [exact E|]. by split.
Qed.

(** C10. For every reference that the release operation may be given
    ([NULL], or a live result that owns its strings), [sc_cleanup_args]
    returns with the caller's reference set to [NULL]; a second release,
    which finds the reference [NULL], returns as well and changes neither
    the reference nor the heap; so two releases in succession do what one
    does. *)
Theorem sc_cleanup_args_idempotent (h : heap) (ref : ptr loc) :
  owned h ref ->
  exists h',
    sc_cleanup_args ref h = Ok (NULL, h') /\
    sc_cleanup_args NULL h' = Ok (NULL, h') /\
    (sc_cleanup_args ref ≫= sc_cleanup_args) h = sc_cleanup_args ref h.
Proof.
  intros Ho. destruct (sc_cleanup_args_owned h ref Ho) as [h' E].
  exists h'. split; [done|]. split; [apply sc_cleanup_args_NULL|].
  by rewrite (bind_ok _ _ _ _ _ E), E.
Qed.

Lemma sc_cleanup_args_idempotent_witness :
  let h : heap :=
    <[1%positive := Args (mk_args (Some 2%positive) (Some 3%positive)
                            false true)]>
      (<[3%positive := Chars "exe"]> (<[2%positive := Chars "tag"]> ∅)) in
  exists h',
    sc_cleanup_args (Some 1%positive) h = Ok (NULL, h') /\
    sc_cleanup_args NULL h' = Ok (NULL, h') /\
    (sc_cleanup_args (Some 1%positive) ≫= sc_cleanup_args) h =
      sc_cleanup_args (Some 1%positive) h.
Proof.
  intros h. apply (sc_cleanup_args_idempotent h (Some 1%positive)).
  exists (mk_args (Some 2%positive) (Some 3%positive) false true).
  split; [reflexivity|].
  split; [intros x [= <-]; split; [discriminate|by eexists]|].
  split; [intros x [= <-]; split; [discriminate|by eexists]|].
  intros x y [= <-] [= <-]. discriminate.
Defined.

(** ** The examples of the specification *)

Example parse_classic_tag_exe :
  exists r h',
    parse ["prog"; "--classic"; "tag"; "exe"] ∅ = Ok (r, h') /\
    r_error r = NULL /\
    observe (r_args r) h' =
      Ok (mk_view (Some "tag") (Some "exe") false true, h').
Proof. eexists _, _. repeat split; vm_compute; reflexivity. Qed.

Example parse_legacy_path :
  exists r h',
    parse ["/path/ubuntu-core-launcher"; "legacy-tag"; "tag"; "exe"] ∅
      = Ok (r, h') /\
    r_error r = NULL /\
    observe (r_args r) h' =
      Ok (mk_view (Some "tag") (Some "exe") false false, h').
Proof. eexists _, _. repeat split; vm_compute; reflexivity. Qed.

Example parse_bogus :
  parse ["prog"; "--bogus"] ∅ =
    Ok (failure ["prog"; "--bogus"]
          (usage "unrecognized command line option: --bogus"), ∅).
Proof. vm_compute. reflexivity. Qed.

Example parse_extra_arguments :
  exists l h',
    parse ["prog"; "tag"; "exe"; "extra1"; "extra2"] ∅ =
      Ok (mk_result (Some l) (Some 3)
            (Some (Some [Some "prog"; Some "extra1"; Some "extra2"; NULL;
                         Some "extra2"; NULL]))
            NULL, h').
Proof. eexists _, _. vm_compute. reflexivity. Qed.

(** * Further properties *)

(** ** The heap, for every input *)

Lemma vec_get_inv argv i p (h h' : heap) :
  vec_get argv i h = Ok (p, h') ->
  h' = h /\ exists v : vec,
    argv = Some v /\ 0 <= i /\ v !! Z.to_nat i = Some p.
Proof.
  unfold vec_get. destruct argv as [v|]; [|done].
  destruct (Z.ltb_spec i 0); [done|].
  destruct (v !! Z.to_nat i) eqn:E; [|done].
  intros [= <- <-]. eauto.
Qed.

Lemma vec_set_inv argv i p argv' (h h' : heap) :
  vec_set argv i p h = Ok (argv', h') -> h' = h.
Proof.
  unfold vec_set. destruct argv as [v|]; [|done].
  destruct (i <? 0); [done|].
  destruct (Z.to_nat i <? length v)%nat; [|done]. by intros [= _ <-].
Qed.

Lemma chars_inv p s (h h' : heap) :
  chars p h = Ok (s, h') -> h' = h /\ p = Some s.
Proof. destruct p; [|done]. by intros [= <- <-]. Qed.

Lemma shift_loop_heap n :
  forall argv optind i x (h h' : heap),
    shift_loop n argv optind i h = Ok (x, h') -> h' = h.
Proof.
  induction n as [|n IH]; intros argv optind i x h h'; cbn [shift_loop].
  { by intros [= _ <-]. }
  intros E. apply bind_inv in E as (p & h1 & E1 & E).
  apply vec_get_inv in E1 as [-> _].
  apply bind_inv in E as (argv1 & h2 & E2 & E).
  apply vec_set_inv in E2 as ->. by eapply IH.
Qed.

(** Whatever array it reads, the scanning loop keeps the heap the original
    heap extended with the structure and the strings it owns. *)
Lemma parse_loop_repr n :
  forall argv optind ign s h0 l h o e h',
    repr h0 l s h ->
    parse_loop n argv l optind ign h = Ok ((o, e), h') ->
    exists s', repr h0 l s' h'.
Proof.
  induction n as [|n IH]; intros argv optind ign s h0 l h o e h' Hr;
    cbn [parse_loop].
  { intros [= _ _ <-]. eauto. }
  intros E. apply bind_inv in E as (p & h1 & E1 & E).
  apply vec_get_inv in E1 as [-> _].
  apply bind_inv in E as (tok & h1 & E1 & E).
  apply chars_inv in E1 as [-> _].
  destruct (repr_load _ _ _ _ Hr) as (a & Hl & Hq & Hc & Ht & He).
  destruct (Ascii.eqb (first_char tok) "-").
  - destruct (strcmp tok "--version" =? 0).
    { rewrite (bind_ok _ _ _ _ _ (load_args_ok _ _ _ Hl)) in E.
      rewrite (bind_ok _ _ _ _ _ (store_args_ok _ _ _ _ Hl)) in E.
      injection E as _ _ <-. eexists. by apply repr_version. }
    destruct (strcmp tok "--classic" =? 0).
    { rewrite (bind_ok _ _ _ _ _ (load_args_ok _ _ _ Hl)) in E.
      rewrite (bind_ok _ _ _ _ _ (store_args_ok _ _ _ _ Hl)) in E.
      eapply IH; [|exact E]. by apply repr_classic. }
    injection E as _ _ <-. eauto.
  - rewrite (bind_ok _ _ _ _ _ (load_args_ok _ _ _ Hl)) in E.
    destruct (security_tag a) as [lt|] eqn:Etag.
    + assert (Hs : v_security_tag s <> NULL) by (intros Hn; by apply Ht in Hn).
      destruct (executable a) as [le|] eqn:Eexe; [by eapply IH|].
      destruct (repr_exe_new _ _ _ _ _ tok Hr Hl Hs (proj1 He eq_refl))
        as [Hl' Hr'].
      unfold strdup in E.
      rewrite (bind_ok _ _ _ _ _
        (eq_refl : alloc (Chars tok) h = Ok (Some (fresh (dom h)), _))) in E.
      rewrite (bind_ok _ _ _ _ _ (load_args_ok _ _ _ Hl')) in E.
      rewrite (bind_ok _ _ _ _ _ (store_args_ok _ _ _ _ Hl')) in E.
      rewrite (bind_ok _ _ _ _ _
        (load_args_ok _ _ _ (lookup_insert_eq _ _ _))) in E.
      simpl in E. injection E as _ _ <-. eauto.
    + destruct ign; [by eapply IH|].
      destruct (repr_tag_new _ _ _ _ _ tok Hr Hl (proj1 Ht eq_refl))
        as [Hl' Hr'].
      unfold strdup in E.
      rewrite (bind_ok _ _ _ _ _
        (eq_refl : alloc (Chars tok) h = Ok (Some (fresh (dom h)), _))) in E.
      rewrite (bind_ok _ _ _ _ _ (load_args_ok _ _ _ Hl')) in E.
      rewrite (bind_ok _ _ _ _ _ (store_args_ok _ _ _ _ Hl')) in E.
      rewrite (bind_ok _ _ _ _ _
        (load_args_ok _ _ _ (lookup_insert_eq _ _ _))) in E.
      simpl in E. by eapply IH.
Qed.

(** Whatever it is given, a call that returns has either failed, with the
    heap as it found it, or succeeded, with a fresh structure and the strings
    it owns added to the heap. *)
Lemma sc_nonfatal_parse_args_heap argcp argvp h r h' :
  sc_nonfatal_parse_args argcp argvp h = Ok (r, h') ->
  (r_args r = NULL /\ is_Some (r_error r) /\ h' = h) \/
  (r_args r = Some (fresh (dom h)) /\ r_error r = NULL /\
   exists s, repr h (fresh (dom h)) s h' /\
     (v_is_version_query s = true \/
      (is_Some (v_security_tag s) /\ is_Some (v_executable s)))).
Proof.
  unfold sc_nonfatal_parse_args. intros E.
  assert (Hearly : forall e,
    out NULL (Some e) argcp argvp h = Ok (r, h') ->
    r_args r = NULL /\ is_Some (r_error r) /\ h' = h).
  { intros e [= <- <-]. simpl. eauto. }
  destruct argcp as [argc|]; [|destruct argvp; left; by eapply Hearly].
  destruct argvp as [argv|]; [|left; by eapply Hearly].
  destruct (argc =? 0); [left; by eapply Hearly|].
  set (l := fresh (dom h)) in *.
  rewrite (bind_ok _ _ _ _ _
    (eq_refl : alloc (Args (mk_args NULL NULL false false)) h
               = Ok (Some l, _))) in E.
  apply bind_inv in E as (p & h2 & E1 & E).
  apply vec_get_inv in E1 as [-> _].
  apply bind_inv in E as (argv0 & h2 & E1 & E).
  apply chars_inv in E1 as [-> _].
  apply bind_inv in E as ([optind err] & h4 & Eloop & E).
  destruct (parse_loop_repr _ _ _ _ view0 h l _ _ _ _
              ltac:(constructor; apply fresh_lookup) Eloop) as [s Hr].
  assert (Hfail : forall e,
    out (Some l) (Some e) (Some argc) (Some argv) h4 = Ok (r, h') ->
    r_args r = NULL /\ is_Some (r_error r) /\ h' = h).
  { intros e E0. rewrite (out_error _ _ _ _ _ _ _ Hr) in E0.
    injection E0 as <- <-. simpl. eauto. }
  destruct err as [e|]; [left; by eapply Hfail|].
  assert (Hshift :
    v_is_version_query s = true \/
      (is_Some (v_security_tag s) /\ is_Some (v_executable s)) ->
    (shift_loop (Z.to_nat (argc - optind - 1)) argv optind 1
     ≫= λ '(argv1, i),
          vec_set argv1 i NULL
          ≫= λ argv2, out (Some l) NULL
                         (Some (argc - optind)) (Some argv2)) h4
    = Ok (r, h') ->
    r_args r = Some l /\ r_error r = NULL /\
    exists s, repr h l s h' /\
      (v_is_version_query s = true \/
       (is_Some (v_security_tag s) /\ is_Some (v_executable s)))).
  { intros Hv E0. apply bind_inv in E0 as ([argv1 i] & h5 & E1 & E0).
    apply shift_loop_heap in E1 as ->.
    apply bind_inv in E0 as (argv2 & h6 & E1 & E0).
    apply vec_set_inv in E1 as ->.
    injection E0 as <- <-. simpl. eauto. }
  destruct (repr_load _ _ _ _ Hr) as (a & Hl & Hq & _ & Ht & He).
  rewrite (bind_ok _ _ _ _ _ (load_args_ok _ _ _ Hl)) in E.
  rewrite Hq in E.
  destruct (v_is_version_query s) eqn:Eq;
    [right; apply Hshift; [by left|done]|].
  cbn [negb] in E.
  destruct (security_tag a) eqn:Eta; [|left; by eapply Hfail].
  destruct (executable a) eqn:Eea; [|left; by eapply Hfail].
  right. apply Hshift; [|done]. right.
  split; apply not_eq_None_Some; intros Hn;
    [by apply Ht in Hn|by apply He in Hn].
Qed.

Lemma repr_frame h0 l s h :
  repr h0 l s h -> forall x, is_Some (h0 !! x) -> h !! x = h0 !! x.
Proof.
  destruct 1; intros x [b Hx];
    rewrite !lookup_insert_ne by congruence; done.
Qed.


(** X2. Whatever the cells hold, a call that returns with an error leaves
    the heap exactly as it found it: the structure and the strings built
    before the error are released. *)
Theorem parse_failure_releases
    (argcp : ptr Z) (argvp : ptr (ptr vec)) (h : heap)
    (r : parse_result) (h' : heap) :
  sc_nonfatal_parse_args argcp argvp h = Ok (r, h') ->
  r_error r <> NULL -> h' = h.
Proof.
  intros E He.
  destruct (sc_nonfatal_parse_args_heap _ _ _ _ _ E)
    as [(_ & _ & ->)|(_ & He' & _)]; [done|congruence].
Qed.

Lemma parse_failure_releases_witness :
  let h : heap := {[ 1%positive := Chars "held" ]} in
  h = h.
Proof.
  intros h.
  apply (parse_failure_releases
           (process_argc ["prog"; "tag"; "--bogus"])
           (process_argv ["prog"; "tag"; "--bogus"]) h
           (failure ["prog"; "tag"; "--bogus"]
              (usage "unrecognized command line option: --bogus")) h);
    [vm_compute; reflexivity|discriminate].
Defined.

(** X3. Whatever the cells hold, when a call returns, releasing what it
    returned with [sc_cleanup_args] returns and gives back the heap the call
    started from: parsing allocates nothing that the release does not
    free. *)
Theorem parse_then_cleanup
    (argcp : ptr Z) (argvp : ptr (ptr vec)) (h : heap)
    (r : parse_result) (h' : heap) :
  sc_nonfatal_parse_args argcp argvp h = Ok (r, h') ->
  sc_cleanup_args (r_args r) h' = Ok (NULL, h).
Proof.
  intros E.
  destruct (sc_nonfatal_parse_args_heap _ _ _ _ _ E)
    as [(-> & _ & ->)|(-> & _ & s & Hr & _)]; [done|].
  by eapply repr_cleanup.
Qed.

Lemma parse_then_cleanup_witness :
  let h : heap := {[ 1%positive := Chars "held" ]} in
  exists (l : loc) (h' : heap),
    parse ["prog"; "tag"; "exe"; "arg"] h =
      Ok (mk_result (Some l) (Some 2)
            (Some (Some [Some "prog"; Some "arg"; NULL; Some "arg"; NULL]))
            NULL, h') /\
    sc_cleanup_args (Some l) h' = Ok (NULL, h).
Proof.
  intros h. eexists _, _. split; [vm_compute; reflexivity|].
  eapply (parse_then_cleanup (process_argc ["prog"; "tag"; "exe"; "arg"])
           (process_argv ["prog"; "tag"; "exe"; "arg"]) h
           (mk_result _ _ _ _)).
  vm_compute; reflexivity.
Defined.

(** X4. Whatever the cells hold, a call that returns has neither changed
    nor freed any block that was live before it, and the handle it returns
    on success is a block that was not live before. *)
Theorem parse_keeps_live_blocks
    (argcp : ptr Z) (argvp : ptr (ptr vec)) (h : heap)
    (r : parse_result) (h' : heap) :
  sc_nonfatal_parse_args argcp argvp h = Ok (r, h') ->
  (forall x, is_Some (h !! x) -> h' !! x = h !! x) /\
  (forall l, r_args r = Some l -> h !! l = None /\ is_Some (h' !! l)).
Proof.
  intros E.
  destruct (sc_nonfatal_parse_args_heap _ _ _ _ _ E)
    as [(-> & _ & ->)|(-> & _ & s & Hr & _)]; [done|].
  split; [by eapply repr_frame|].
  intros l [= <-]. split; [apply fresh_lookup|].
  destruct (repr_load _ _ _ _ Hr) as (a & Hl & _). eauto.
Qed.

Lemma parse_keeps_live_blocks_witness :
  let h : heap := {[ 1%positive := Chars "held" ]} in
  exists h' : heap,
    (forall x, is_Some (h !! x) -> h' !! x = h !! x) /\
    (forall l, Some 2%positive = Some l -> h !! l = None /\ is_Some (h' !! l)).
Proof.
  intros h. eexists.
  eapply (parse_keeps_live_blocks (process_argc ["prog"; "tag"; "exe"])
           (process_argv ["prog"; "tag"; "exe"]) h (mk_result _ _ _ _)).
  vm_compute; reflexivity.
Defined.

(** ** What a release frees *)

Lemma sc_cleanup_args_heap h l a :
  h !! l = Some (Args a) ->
  (forall x, security_tag a = Some x -> x <> l /\ is_Some (h !! x)) ->
  (forall x, executable a = Some x -> x <> l /\ is_Some (h !! x)) ->
  (forall x y, security_tag a = Some x -> executable a = Some y -> x <> y) ->
  sc_cleanup_args (Some l) h =
    Ok (NULL, delete l
                (from_option (fun x => delete x) id (executable a)
                   (from_option (fun x => delete x) id (security_tag a) h))).
Proof.
  intros Hl Ht He Hte. unfold sc_cleanup_args.
  by rewrite (bind_ok _ _ _ _ _ (sc_args_free_owned _ _ _ Hl Ht He Hte)).
Qed.

(** X5. For every reference that may be released, [sc_cleanup_args] frees
    the structure and the strings it owns, and nothing else: afterwards
    these blocks are not live and every other block is as it was. *)
Theorem sc_cleanup_args_frees_owned (h : heap) (ref : ptr loc) :
  owned h ref ->
  exists h',
    sc_cleanup_args ref h = Ok (NULL, h') /\
    forall x,
      h' !! x = if decide (x ∈ footprint h ref) then None else h !! x.
Proof.
  destruct ref as [l|]; last first.
  { intros _. exists h. split; [apply sc_cleanup_args_NULL|]. intros x.
    unfold footprint. case_decide as Hin; [|done].
    by apply elem_of_nil in Hin. }
  intros (a & Hl & Ht & He & Hte).
  eexists. split; [by apply sc_cleanup_args_heap|].
  intros x. unfold footprint. rewrite Hl.
  assert (Hin : x ∈ l :: option_list (security_tag a)
                     ++ option_list (executable a) <->
                x = l \/ security_tag a = Some x \/ executable a = Some x).
  { rewrite elem_of_cons, elem_of_app.
    destruct (security_tag a), (executable a); simpl;
      rewrite ?list_elem_of_singleton, ?elem_of_nil; intuition congruence. }
  assert (Hdel : forall (p : ptr loc) (m : heap),
    from_option (fun y => delete y) id p m !! x =
      if decide (p = Some x) then None else m !! x).
  { intros [y|] m; unfold from_option, id; case_decide as E; simplify_eq.
    - by rewrite lookup_delete_eq.
    - rewrite lookup_delete_ne; congruence.
    - done. }
  destruct (decide (x = l)) as [->|Hxl].
  { rewrite lookup_delete_eq. rewrite decide_True; [done|]. apply Hin; auto. }
  rewrite lookup_delete_ne by done. rewrite !Hdel.
  repeat case_decide; try done; exfalso; rewrite Hin in *; intuition.
Qed.

Lemma sc_cleanup_args_frees_owned_witness :
  let h : heap :=
    <[1%positive := Args (mk_args (Some 2%positive) (Some 3%positive)
                            false true)]>
      (<[3%positive := Chars "exe"]>
         (<[2%positive := Chars "tag"]> {[ 4%positive := Chars "held" ]})) in
  exists h',
    sc_cleanup_args (Some 1%positive) h = Ok (NULL, h') /\
    forall x,
      h' !! x =
        if decide (x ∈ footprint h (Some 1%positive)) then None else h !! x.
Proof.
  intros h. apply (sc_cleanup_args_frees_owned h (Some 1%positive)).
  exists (mk_args (Some 2%positive) (Some 3%positive) false true).
  split; [reflexivity|].
  split; [intros x [= <-]; split; [discriminate|by eexists]|].
  split; [intros x [= <-]; split; [discriminate|by eexists]|].
  intros x y [= <-] [= <-]. discriminate.
Defined.

(** X6. [sc_args_free] does not clear the caller's pointer: for every live
    result that owns its strings, a second [sc_args_free] of the same
    pointer reads the freed structure, which has no defined behaviour. *)
Theorem sc_args_free_twice_faults (h : heap) (l : loc) :
  owned h (Some l) ->
  (sc_args_free (Some l) ≫= λ _, sc_args_free (Some l)) h = Fault.
Proof.
  intros (a & Hl & Ht & He & Hte).
  rewrite (bind_ok _ _ _ _ _ (sc_args_free_owned _ _ _ Hl Ht He Hte)).
  unfold sc_args_free, mbind, M_bind, load_args.
  by rewrite lookup_delete_eq.
Qed.

Lemma sc_args_free_twice_faults_witness :
  let h : heap :=
    <[1%positive := Args (mk_args (Some 2%positive) NULL true false)]>
      {[ 2%positive := Chars "tag" ]} in
  (sc_args_free (Some 1%positive) ≫= λ _, sc_args_free (Some 1%positive)) h
    = Fault.
Proof.
  intros h. apply (sc_args_free_twice_faults h 1%positive).
  exists (mk_args (Some 2%positive) NULL true false).
  split; [reflexivity|].
  split; [intros x [= <-]; split; [discriminate|by eexists]|].
  split; [discriminate|]. discriminate.
Defined.

(** ** A call is decided by its scan *)

Lemma parse_verdict prog rest h :
  let toks := prog :: rest in
  exists r h',
    parse toks h = Ok (r, h') /\
    r_error r = verdict (scan_error toks) (scan_view toks) /\
    (r_error r = NULL ->
     r_argc r = Some (Z.of_nat (length toks) - stop_position toks) /\
     observe (r_args r) h' = Ok (scan_view toks, h')).
Proof.
  intros toks. pose proof (parse_scan prog rest h) as H. cbn zeta in H.
  fold toks in H. unfold verdict.
  assert (Hsucc : succeeds toks h ->
    exists r h',
      parse toks h = Ok (r, h') /\ r_error r = NULL /\
      (r_error r = NULL ->
       r_argc r = Some (Z.of_nat (length toks) - stop_position toks) /\
       observe (r_args r) h' = Ok (scan_view toks, h'))).
  { intros (h' & v' & E & Hr & _). eexists _, h'. split; [exact E|].
    split; [done|]. intros _. split; [done|]. by eapply observe_repr. }
  destruct (scan_error toks) as [e|].
  { eexists _, h. split; [exact H|]. by split. }
  destruct (v_is_version_query (scan_view toks)); [by apply Hsucc|].
  cbn [negb].
  destruct (v_security_tag (scan_view toks)).
  - destruct (v_executable (scan_view toks)); [by apply Hsucc|].
    eexists _, h. split; [exact H|]. by split.
  - eexists _, h. split; [exact H|]. by split.
Qed.

(** ** How the scan depends on its arguments *)

Lemma scan_shift toks d :
  forall optind s ign,
    scan toks (optind + d) s ign =
      ((scan toks optind s ign).1.1 + d,
       (scan toks optind s ign).1.2, (scan toks optind s ign).2).
Proof.
  induction toks as [|tok rest IH]; intros optind s ign; cbn [scan]; [done|].
  replace (optind + d + 1) with (optind + 1 + d) by lia.
  destruct (Ascii.eqb (first_char tok) "-").
  - destruct (strcmp tok "--version" =? 0); [done|].
    destruct (strcmp tok "--classic" =? 0); [apply IH|done].
  - destruct (v_security_tag s).
    + destruct (v_executable s); [apply IH|done].
    + destruct ign; apply IH.
Qed.

Lemma scan_with_classic toks :
  forall optind s ign,
    scan toks optind (with_classic s) ign =
      ((scan toks optind s ign).1, with_classic (scan toks optind s ign).2).
Proof.
  induction toks as [|tok rest IH]; intros optind s ign; cbn [scan]; [done|].
  destruct (Ascii.eqb (first_char tok) "-").
  - destruct (strcmp tok "--version" =? 0); [done|].
    destruct (strcmp tok "--classic" =? 0); [|done].
    change (with_classic (with_classic s)) with (with_classic s).
    rewrite IH. by destruct (scan rest (optind + 1) s ign) as [[? ?] []].
  - change (v_security_tag (with_classic s)) with (v_security_tag s).
    change (v_executable (with_classic s)) with (v_executable s).
    destruct (v_security_tag s).
    + destruct (v_executable s); [apply IH|done].
    + destruct ign; [apply IH|].
      change (with_tag (with_classic s) tok)
        with (with_classic (with_tag s tok)). apply IH.
Qed.

(** Tokens after the position at which the scan stops are not read. *)
Lemma scan_prefix pre post :
  forall optind s ign,
    (scan pre optind s ign).1.1 < optind + Z.of_nat (length pre) ->
    scan (pre ++ post) optind s ign = scan pre optind s ign.
Proof.
  induction pre as [|tok pre IH]; intros optind s ign; cbn [app scan length].
  { simpl. lia. }
  assert (Hnext : forall s' ign',
    (scan pre (optind + 1) s' ign').1.1 < optind + Z.of_nat (S (length pre)) ->
    scan (pre ++ post) (optind + 1) s' ign' = scan pre (optind + 1) s' ign').
  { intros s' ign' H. apply IH. lia. }
  destruct (Ascii.eqb (first_char tok) "-").
  - destruct (strcmp tok "--version" =? 0); [done|].
    destruct (strcmp tok "--classic" =? 0); [apply Hnext|done].
  - destruct (v_security_tag s).
    + destruct (v_executable s); [apply Hnext|done].
    + destruct ign; apply Hnext.
Qed.

(** A [--version] that the scan reaches ends it. *)
Lemma scan_version_after pre post :
  forall optind s ign,
    (scan pre optind s ign).1.1 = optind + Z.of_nat (length pre) ->
    scan (pre ++ "--version" :: post) optind s ign =
      (optind + Z.of_nat (length pre), NULL,
       with_version (scan pre optind s ign).2).
Proof.
  induction pre as [|tok pre IH]; intros optind s ign; cbn [app scan length].
  { intros _. simpl. do 2 f_equal. lia. }
  assert (Hnext : forall s' ign',
    (scan pre (optind + 1) s' ign').1.1 = optind + Z.of_nat (S (length pre)) ->
    scan (pre ++ "--version" :: post) (optind + 1) s' ign' =
      (optind + Z.of_nat (S (length pre)), NULL,
       with_version (scan pre (optind + 1) s' ign').2)).
  { intros s' ign' E. rewrite IH by lia. do 2 f_equal. lia. }
  destruct (Ascii.eqb (first_char tok) "-").
  - destruct (strcmp tok "--version" =? 0); [simpl; lia|].
    destruct (strcmp tok "--classic" =? 0); [apply Hnext|simpl; lia].
  - destruct (v_security_tag s).
    + destruct (v_executable s); [apply Hnext|simpl; lia].
    + destruct ign; apply Hnext.
Qed.

(** ** Arguments after the stop position *)

Lemma compacted_front prog rest stop (v' : vec) :
  compacted (prog :: rest) stop v' ->
  (1 <= stop < length (prog :: rest))%nat ->
  take (length (prog :: rest) - stop) v' =
    Some prog :: (Some <$> drop (S stop) (prog :: rest)).
Proof.
  intros Hc Hstop. pose proof (compacted_take _ _ _ _ Hc Hstop) as Ht.
  apply (f_equal (take (length (prog :: rest) - stop))) in Ht.
  rewrite take_take in Ht.
  rewrite Nat.min_l in Ht by lia.
  rewrite Ht. rewrite app_comm_cons. apply take_app_length'.
  cbn [length] in *. rewrite length_fmap, length_drop. cbn [length]. lia.
Qed.

(** X7. Arguments that follow a command line which parses are passed
    through: when parsing [toks] succeeds, parsing [toks ++ post] succeeds
    with the same security tag, executable and flags, the count written
    back grows by the length of [post], and the vector written back is the
    one for [toks] with [post] before its terminator. *)
Theorem parse_passes_arguments_through
    (toks post : list string) (h : heap) (r : parse_result) (h' : heap)
    (v : view) :
  parse toks h = Ok (r, h') -> r_error r = NULL ->
  observe (r_args r) h' = Ok (v, h') ->
  exists r2 h2 (n : nat) (v1 v2 : vec),
    parse (toks ++ post) h = Ok (r2, h2) /\ r_error r2 = NULL /\
    observe (r_args r2) h2 = Ok (v, h2) /\
    r_argc r = Some (Z.of_nat n) /\
    r_argc r2 = Some (Z.of_nat (n + length post)) /\
    r_argv r = Some (Some v1) /\ r_argv r2 = Some (Some v2) /\
    take (S (n + length post)) v2 = take n v1 ++ (Some <$> post) ++ [NULL].
Proof.
  intros E He Ho. pose proof (observe_success _ _ _ _ _ E He Ho) as ->.
  destruct (parse_success_inv _ _ _ _ E He)
    as (v1 & -> & _ & Hstop & Hc & Herr & Hv).
  destruct toks as [|prog rest]; [simpl in Hstop; lia|].
  assert (Hs : scan_argv (prog :: rest ++ post) =
               (stop_position (prog :: rest), NULL,
                scan_view (prog :: rest))).
  { unfold scan_argv. cbn [tail hd].
    rewrite scan_prefix by (cbn [length] in Hstop;
      unfold stop_position, scan_argv in Hstop; cbn [tail hd] in Hstop; lia).
    unfold stop_position, scan_view, scan_error, scan_argv in *.
    cbn [tail hd] in *.
    by destruct (scan rest 1 view0 (legacy_name prog)) as [[? ?] ?];
      simplify_eq/=. }
  destruct (parse_of_scan_success _ _ _ _ h Hs) as (v2 & h2 & E2 & Ho2 & Hc2).
  { destruct Hv as [|(t & e & -> & ->)]; eauto. }
  remember (Z.to_nat (stop_position (prog :: rest))) as stop eqn:Estop.
  cbn [length] in Hstop.
  exists (mk_result (Some (fresh (dom h)))
            (Some (Z.of_nat (length (prog :: rest ++ post))
                   - stop_position (prog :: rest)))
            (Some (Some v2)) NULL), h2,
         (length (prog :: rest) - stop)%nat, v1, v2.
  split; [exact E2|]. split; [done|]. split; [exact Ho2|].
  split; [cbn [r_argc length]; do 2 f_equal; lia|].
  split.
  { cbn [r_argc length]. do 2 f_equal. rewrite length_app. lia. }
  split; [done|]. split; [done|].
  rewrite (compacted_front _ _ _ _ Hc) by (cbn [length]; lia).
  replace (S (length (prog :: rest) - stop + length post))
    with (S (length (prog :: rest ++ post) - stop))
    by (cbn [length]; rewrite length_app; lia).
  rewrite (compacted_take _ _ _ _ Hc2)
    by (cbn [length]; rewrite length_app; lia).
  cbn [drop]. rewrite drop_app_le by lia.
  by rewrite fmap_app, <- app_assoc.
Qed.

Lemma parse_passes_arguments_through_witness :
  exists r2 h2 (n : nat) (v1 v2 : vec),
    parse (["prog"; "--classic"; "tag"; "exe"; "one"] ++ ["two"; "three"]) ∅
      = Ok (r2, h2) /\
    r_error r2 = NULL /\
    observe (r_args r2) h2 =
      Ok (mk_view (Some "tag") (Some "exe") false true, h2) /\
    Some 2 = Some (Z.of_nat n) /\
    r_argc r2 = Some (Z.of_nat (n + length ["two"; "three"])) /\
    Some (Some [Some "prog"; Some "one"; NULL; Some "exe"; Some "one"; NULL])
      = Some (Some v1) /\
    r_argv r2 = Some (Some v2) /\
    take (S (n + length ["two"; "three"])) v2 =
      take n v1 ++ (Some <$> ["two"; "three"]) ++ [NULL].
Proof.
  eapply (parse_passes_arguments_through
            ["prog"; "--classic"; "tag"; "exe"; "one"] ["two"; "three"] ∅
            (mk_result _ _ _ _));
    [vm_compute; reflexivity|reflexivity|vm_compute; reflexivity].
Defined.

(** X8. [--version] ends the scan wherever the scan reaches it: when the
    scan of [prog :: pre] runs through all of [pre], parsing
    [prog :: pre ++ "--version" :: post] succeeds, whatever [pre] left unset
    and whatever [post] holds; the result shows the version query and what
    [pre] stored, and the tokens of [post] are written back after the
    program name. *)
Theorem parse_version_reached
    (prog : string) (pre post : list string) (h : heap) :
  scan_runs_through prog pre ->
  exists r h' (v' : vec),
    parse (prog :: pre ++ "--version" :: post) h = Ok (r, h') /\
    r_error r = NULL /\
    observe (r_args r) h' = Ok (with_version (scan_view (prog :: pre)), h') /\
    r_argc r = Some (1 + Z.of_nat (length post)) /\
    r_argv r = Some (Some v') /\
    take (2 + length post) v' = Some prog :: (Some <$> post) ++ [NULL].
Proof.
  intros Hrun.
  pose proof (scan_version_after pre post 1 view0 (legacy_name prog) Hrun)
    as Hs.
  destruct (parse_of_scan_success prog (pre ++ "--version" :: post) _ _ h Hs)
    as (v' & h' & E & Ho & Hc); [by left|].
  eexists _, h', v'. split; [exact E|]. split; [done|]. split; [exact Ho|].
  split.
  { cbn [r_argc length]. rewrite length_app. cbn [length].
    do 2 f_equal. lia. }
  split; [done|].
  pose proof (compacted_take _ _ _ _ Hc) as Ht.
  replace (Z.to_nat (1 + Z.of_nat (length pre))) with (S (length pre))
    in Ht by lia.
  cbn [length drop] in Ht. rewrite length_app in Ht. cbn [length] in Ht.
  replace (S (S (length pre + S (length post)) - S (length pre)))
    with (2 + length post)%nat in Ht by lia.
  rewrite Ht by lia.
  rewrite (cons_middle "--version" pre post), app_assoc.
  rewrite drop_app_length'; [done|].
  rewrite length_app. simpl. lia.
Qed.

Lemma parse_version_reached_witness :
  exists r h' (v' : vec),
    parse ("prog" :: ["--classic"; "tag"] ++ "--version" :: ["x"; "-y"]) ∅
      = Ok (r, h') /\
    r_error r = NULL /\
    observe (r_args r) h' =
      Ok (with_version (scan_view ("prog" :: ["--classic"; "tag"])), h') /\
    r_argc r = Some (1 + Z.of_nat (length ["x"; "-y"])) /\
    r_argv r = Some (Some v') /\
    take (2 + length ["x"; "-y"]) v' =
      Some "prog" :: (Some <$> ["x"; "-y"]) ++ [NULL].
Proof.
  apply (parse_version_reached "prog" ["--classic"; "tag"] ["x"; "-y"] ∅).
  reflexivity.
Defined.

(** ** Command lines that parse alike *)

Lemma parse_transfer p1 rest1 p2 rest2 (f : view -> view) h r h' :
  scan_error (p2 :: rest2) = scan_error (p1 :: rest1) ->
  scan_view (p2 :: rest2) = f (scan_view (p1 :: rest1)) ->
  Z.of_nat (length rest2) - stop_position (p2 :: rest2) =
    Z.of_nat (length rest1) - stop_position (p1 :: rest1) ->
  (forall err s, verdict err (f s) = verdict err s) ->
  parse (p1 :: rest1) h = Ok (r, h') ->
  exists r2 h2,
    parse (p2 :: rest2) h = Ok (r2, h2) /\
    r_error r2 = r_error r /\
    (r_error r = NULL ->
     r_argc r2 = r_argc r /\
     forall v, observe (r_args r) h' = Ok (v, h') ->
               observe (r_args r2) h2 = Ok (f v, h2)).
Proof.
  intros Herr Hview Hstop Hf E.
  destruct (parse_verdict p1 rest1 h) as (r1 & h1 & E1 & He1 & Hs1).
  rewrite E1 in E. simplify_eq.
  destruct (parse_verdict p2 rest2 h) as (r2 & h2 & E2 & He2 & Hs2).
  exists r2, h2. split; [done|].
  assert (He : r_error r2 = r_error r).
  { by rewrite He1, He2, Herr, Hview, Hf. }
  split; [done|]. intros Hn.
  destruct (Hs1 Hn) as [Hc1 Ho1]. destruct (Hs2 ltac:(congruence)) as [Hc2 Ho2].
  split.
  { rewrite Hc1, Hc2. f_equal. cbn [length]. lia. }
  intros v Ho. rewrite Ho1 in Ho. simplify_eq. by rewrite Ho2, Hview.
Qed.

(** X9. A [--classic] in front only sets the classic flag: for every
    command line, the call with ["--classic"] inserted after the program
    name returns the same error if any, and otherwise the same count, the
    same security tag, executable and version flag, and the classic flag
    set. *)
Theorem parse_classic_in_front
    (prog : string) (rest : list string) (h : heap)
    (r : parse_result) (h' : heap) :
  parse (prog :: rest) h = Ok (r, h') ->
  exists r2 h2,
    parse (prog :: "--classic" :: rest) h = Ok (r2, h2) /\
    r_error r2 = r_error r /\
    (r_error r = NULL ->
     r_argc r2 = r_argc r /\
     forall v, observe (r_args r) h' = Ok (v, h') ->
               observe (r_args r2) h2 = Ok (with_classic v, h2)).
Proof.
  assert (Hs : scan_argv (prog :: "--classic" :: rest) =
    ((scan_argv (prog :: rest)).1.1 + 1, (scan_argv (prog :: rest)).1.2,
     with_classic (scan_argv (prog :: rest)).2)).
  { unfold scan_argv. cbn [tail hd scan].
    change (Ascii.eqb (first_char "--classic") "-") with true.
    change (strcmp "--classic" "--version" =? 0) with false.
    change (strcmp "--classic" "--classic" =? 0) with true.
    cbv iota. rewrite (scan_shift rest 1 1), scan_with_classic.
    by destruct (scan rest 1 view0 (legacy_name prog)) as [[? ?] ?]. }
  apply (parse_transfer prog rest prog ("--classic" :: rest) with_classic);
    unfold scan_error, scan_view, stop_position; rewrite ?Hs;
    [done|done|cbn [fst snd length]; lia|].
  intros [e|] s; [done|]. by destruct s as [[] [] [] ?].
Qed.

Lemma parse_classic_in_front_witness :
  exists r2 h2,
    parse ["prog"; "--classic"; "tag"; "exe"; "arg"] ∅ = Ok (r2, h2) /\
    r_error r2 = NULL /\ r_argc r2 = Some 2 /\
    observe (r_args r2) h2 =
      Ok (mk_view (Some "tag") (Some "exe") false true, h2).
Proof.
  set (h' := <[1%positive := Args (mk_args (Some 2%positive)
                                     (Some 3%positive) false false)]>
               (<[3%positive := Chars "exe"]>
                  (<[2%positive := Chars "tag"]> (∅ : heap)))).
  destruct (parse_classic_in_front "prog" ["tag"; "exe"; "arg"] ∅
              (mk_result (Some 1%positive) (Some 2)
                 (Some (Some [Some "prog"; Some "arg"; NULL;
                              Some "arg"; NULL]))
                 NULL) h')
    as (r2 & h2 & E & He & Hs); [vm_compute; reflexivity|].
  destruct (Hs eq_refl) as [Hc Ho].
  exists r2, h2. split; [exact E|]. split; [exact He|]. split; [exact Hc|].
  apply (Ho (mk_view (Some "tag") (Some "exe") false false)).
  vm_compute. reflexivity.
Defined.

(** X10. Called under a name that the code takes for the legacy launcher,
    with one positional argument in front, the call does what it does for
    the rest of the command line under a name it does not take for the
    legacy launcher: the same error if any, and otherwise the same count,
    security tag, executable and flags. *)
Theorem parse_legacy_as_plain
    (lprog prog p1 : string) (rest : list string) (h : heap)
    (r : parse_result) (h' : heap) :
  legacy_name lprog = true -> legacy_name prog = false ->
  positional p1 = true ->
  parse (prog :: rest) h = Ok (r, h') ->
  exists r2 h2,
    parse (lprog :: p1 :: rest) h = Ok (r2, h2) /\
    r_error r2 = r_error r /\
    (r_error r = NULL ->
     r_argc r2 = r_argc r /\
     forall v, observe (r_args r) h' = Ok (v, h') ->
               observe (r_args r2) h2 = Ok (v, h2)).
Proof.
  intros Hl Hp H1.
  assert (Hs : scan_argv (lprog :: p1 :: rest) =
    ((scan_argv (prog :: rest)).1.1 + 1, (scan_argv (prog :: rest)).1.2,
     (scan_argv (prog :: rest)).2)).
  { unfold scan_argv. cbn [tail hd scan]. rewrite Hl, Hp.
    unfold positional in H1. apply negb_true_iff in H1. rewrite H1.
    cbn [v_security_tag view0]. apply (scan_shift rest 1 1). }
  apply (parse_transfer prog rest lprog (p1 :: rest) id);
    unfold scan_error, scan_view, stop_position; rewrite ?Hs;
    [done|done|cbn [fst snd length]; lia|done].
Qed.

Lemma parse_legacy_as_plain_witness :
  exists r2 h2,
    parse ["/usr/bin/ubuntu-core-launcher"; "snap.app"; "snap.app"; "/bin/sh"]
      ∅ = Ok (r2, h2) /\
    r_error r2 = NULL /\ r_argc r2 = Some 1 /\
    observe (r_args r2) h2 =
      Ok (mk_view (Some "snap.app") (Some "/bin/sh") false false, h2).
Proof.
  set (h' := <[1%positive := Args (mk_args (Some 2%positive)
                                     (Some 3%positive) false false)]>
               (<[3%positive := Chars "/bin/sh"]>
                  (<[2%positive := Chars "snap.app"]> (∅ : heap)))).
  destruct (parse_legacy_as_plain "/usr/bin/ubuntu-core-launcher"
              "snap-confine" "snap.app" ["snap.app"; "/bin/sh"] ∅
              (mk_result (Some 1%positive) (Some 1)
                 (Some (Some [Some "snap-confine"; NULL; Some "/bin/sh"; NULL]))
                 NULL) h')
    as (r2 & h2 & E & He & Hs);
    [reflexivity|reflexivity|reflexivity|vm_compute; reflexivity|].
  destruct (Hs eq_refl) as [Hc Ho].
  exists r2, h2. split; [exact E|]. split; [exact He|]. split; [exact Hc|].
  apply (Ho (mk_view (Some "snap.app") (Some "/bin/sh") false false)).
  vm_compute. reflexivity.
Defined.

(** ** Where the scan stops and what it stores *)

Lemma scan_stop_token toks :
  forall optind s ign,
    let r := scan toks optind s ign in
    r.1.2 = NULL ->
    (r.1.1 = optind + Z.of_nat (length toks) /\
     v_is_version_query r.2 = v_is_version_query s /\
     v_executable r.2 = v_executable s) \/
    (toks !! Z.to_nat (r.1.1 - optind) = Some "--version" /\
     v_is_version_query r.2 = true /\ v_executable r.2 = v_executable s) \/
    (exists e, toks !! Z.to_nat (r.1.1 - optind) = Some e /\
       v_executable r.2 = Some e /\ v_executable s = NULL /\
       v_is_version_query r.2 = v_is_version_query s).
Proof.
  induction toks as [|tok rest IH]; intros optind s ign; cbn [scan length].
  { intros _. left. simpl. repeat split. lia. }
  assert (Hnext : forall s' ign',
    v_is_version_query s' = v_is_version_query s ->
    v_executable s' = v_executable s ->
    let r := scan rest (optind + 1) s' ign' in
    r.1.2 = NULL ->
    (r.1.1 = optind + Z.of_nat (S (length rest)) /\
     v_is_version_query r.2 = v_is_version_query s /\
     v_executable r.2 = v_executable s) \/
    ((tok :: rest) !! Z.to_nat (r.1.1 - optind) = Some "--version" /\
     v_is_version_query r.2 = true /\ v_executable r.2 = v_executable s) \/
    (exists e, (tok :: rest) !! Z.to_nat (r.1.1 - optind) = Some e /\
       v_executable r.2 = Some e /\ v_executable s = NULL /\
       v_is_version_query r.2 = v_is_version_query s)).
  { intros s' ign' Hq He r Herr. subst r.
    pose proof (scan_lower rest (optind + 1) s' ign') as Hlow.
    replace (Z.to_nat ((scan rest (optind + 1) s' ign').1.1 - optind))
      with (S (Z.to_nat ((scan rest (optind + 1) s' ign').1.1 - (optind + 1))))
      by lia.
    cbn [lookup list_lookup]. rewrite <- Hq, <- He.
    destruct (IH (optind + 1) s' ign' Herr) as [(E & ? & ?)|[?|?]];
      [left; repeat split; [lia|done..]|right; by left|right; by right]. }
  destruct (Ascii.eqb (first_char tok) "-") eqn:Edash.
  - rewrite !strcmp_eq. case_bool_decide as Ev.
    { intros _. right. left. simpl. rewrite Z.sub_diag. by subst. }
    case_bool_decide as Ec; [by apply Hnext|done].
  - destruct (v_security_tag s).
    + destruct (v_executable s) eqn:Ee; [by apply Hnext|].
      intros _. right. right. exists tok. simpl. by rewrite Z.sub_diag.
    + destruct ign; by apply Hnext.
Qed.

Lemma scan_tag_kept toks :
  forall optind s ign t,
    v_security_tag s = Some t ->
    v_security_tag (scan toks optind s ign).2 = Some t.
Proof.
  induction toks as [|tok rest IH]; intros optind s ign t Ht; cbn [scan];
    [done|].
  destruct (Ascii.eqb (first_char tok) "-").
  - destruct (strcmp tok "--version" =? 0); [done|].
    destruct (strcmp tok "--classic" =? 0); [by apply IH|done].
  - rewrite Ht. destruct (v_executable s); [by apply IH|done].
Qed.

(** When the scan stops at the executable, the positional tokens it has
    read are the one it skipped, if any, the security tag if it was not set
    before, and the executable. *)
Lemma scan_positionals toks :
  forall optind s ign e,
    let r := scan toks optind s ign in
    let read :=
      List.filter positional (take (S (Z.to_nat (r.1.1 - optind))) toks) in
    r.1.2 = NULL -> v_executable s = NULL -> v_executable r.2 = Some e ->
    (forall t0, v_security_tag s = Some t0 ->
       v_security_tag r.2 = Some t0 /\ read = [e]) /\
    (v_security_tag s = NULL -> ign = false ->
       exists t, v_security_tag r.2 = Some t /\ read = [t; e]) /\
    (v_security_tag s = NULL -> ign = true ->
       exists p t, v_security_tag r.2 = Some t /\ read = [p; t; e]).
Proof.
  induction toks as [|tok rest IH]; intros optind s ign e; cbn [scan].
  { simpl. congruence. }
  assert (Hstep : forall s' ign',
    let r := scan rest (optind + 1) s' ign' in
    take (S (Z.to_nat (r.1.1 - optind))) (tok :: rest) =
      tok :: take (S (Z.to_nat (r.1.1 - (optind + 1)))) rest).
  { intros s' ign' r. subst r.
    pose proof (scan_lower rest (optind + 1) s' ign').
    replace (Z.to_nat ((scan rest (optind + 1) s' ign').1.1 - optind))
      with (S (Z.to_nat ((scan rest (optind + 1) s' ign').1.1 - (optind + 1))))
      by lia. done. }
  destruct (Ascii.eqb (first_char tok) "-") eqn:Edash.
  - assert (Hp : positional tok = false)
      by (unfold positional; by rewrite Edash).
    destruct (strcmp tok "--version" =? 0); [simpl; congruence|].
    destruct (strcmp tok "--classic" =? 0); [|simpl; congruence].
    intros Herr Hs He. rewrite Hstep.
    cbn [List.filter]. rewrite Hp.
    by apply (IH (optind + 1) (with_classic s) ign e).
  - assert (Hp : positional tok = true)
      by (unfold positional; by rewrite Edash).
    destruct (v_security_tag s) as [t0|] eqn:Et.
    + destruct (v_executable s) eqn:Ee; [simpl; congruence|].
      intros _ _ He. simpl in *. rewrite Z.sub_diag.
      simpl. rewrite Hp, Et. injection He as <-.
      split; [by intros ? [= <-]|]. split; congruence.
    + destruct ign.
      * intros Herr Hs He. rewrite Hstep.
        cbn [List.filter]. rewrite Hp.
        destruct (IH (optind + 1) s false e Herr Hs He) as (_ & H2 & _).
        destruct (H2 Et eq_refl) as (t & Ht & ->).
        split; [done|]. split; [done|]. intros _ _. by exists tok, t.
      * intros Herr Hs He. rewrite Hstep.
        cbn [List.filter]. rewrite Hp.
        destruct (IH (optind + 1) (with_tag s tok) false e Herr Hs He)
          as (H1 & _ & _).
        destruct (H1 tok eq_refl) as (Ht & ->).
        split; [done|]. split; [|done]. intros _ _. by exists tok.
Qed.

(** An error of the scan names a token that begins with ['-'] and is not a
    switch. *)
Lemma scan_error_form toks :
  forall optind s ign e,
    (scan toks optind s ign).1.2 = Some e ->
    exists tok, tok ∈ toks /\ first_char tok = "-"%char /\
      tok <> "--version" /\ tok <> "--classic" /\
      e = usage ("unrecognized command line option: " +:+ tok).
Proof.
  induction toks as [|tok rest IH]; intros optind s ign e; cbn [scan];
    [done|].
  assert (Hnext : forall s' ign',
    (scan rest (optind + 1) s' ign').1.2 = Some e ->
    exists tok', tok' ∈ tok :: rest /\ first_char tok' = "-"%char /\
      tok' <> "--version" /\ tok' <> "--classic" /\
      e = usage ("unrecognized command line option: " +:+ tok')).
  { intros s' ign' E. destruct (IH _ _ _ _ E) as (tok' & Hin & H).
    exists tok'. split; [by right|done]. }
  destruct (Ascii.eqb (first_char tok) "-") eqn:Edash.
  - rewrite !strcmp_eq. case_bool_decide as Ev; [done|].
    case_bool_decide as Ec; [apply Hnext|].
    intros [= <-]. exists tok. apply Ascii.eqb_eq in Edash.
    split; [by left|done].
  - destruct (v_security_tag s).
    + destruct (v_executable s); [apply Hnext|done].
    + destruct ign; apply Hnext.
Qed.

(** ** What a result holds *)

(** X11. Whatever the cells hold, when the call returns a handle, the
    handle is a live structure on which the four accessors return without
    changing the heap, its strings are live blocks, and unless it shows a
    version query both its security tag and its executable are set. *)
Theorem parse_result_readable
    (argcp : ptr Z) (argvp : ptr (ptr vec)) (h : heap)
    (r : parse_result) (h' : heap) :
  sc_nonfatal_parse_args argcp argvp h = Ok (r, h') -> r_error r = NULL ->
  exists (v : view) (t e : ptr loc),
    sc_args_is_version_query (r_args r) h' = Ok (v_is_version_query v, h') /\
    sc_args_is_classic_confinement (r_args r) h' =
      Ok (v_is_classic_confinement v, h') /\
    sc_args_security_tag (r_args r) h' = Ok (t, h') /\
    string_at t h' = Ok (v_security_tag v, h') /\
    sc_args_executable (r_args r) h' = Ok (e, h') /\
    string_at e h' = Ok (v_executable v, h') /\
    (v_is_version_query v = false ->
     is_Some (v_security_tag v) /\ is_Some (v_executable v)).
Proof.
  intros E He.
  destruct (sc_nonfatal_parse_args_heap _ _ _ _ _ E)
    as [(_ & [e He'] & _)|(-> & _ & s & Hr & Hv)]; [congruence|].
  assert (Hstr : forall (l : loc) (x : string) (m : heap),
    m !! l = Some (Chars x) -> string_at (Some l) m = Ok (Some x, m))
    by (intros; by apply string_at_ok).
  exists s.
  destruct Hr as [q c Hl|lt t q c Hl Hlt Hne|lt le t e q c Hl Hlt Hle ? ? ?].
  - exists NULL, NULL.
    pose proof (lookup_insert_eq h (fresh (dom h))
                  (Args (mk_args NULL NULL q c))) as Ha.
    rewrite (sc_args_is_version_query_ok _ _ _ Ha),
      (sc_args_is_classic_confinement_ok _ _ _ Ha),
      (sc_args_security_tag_ok _ _ _ Ha), (sc_args_executable_ok _ _ _ Ha).
    repeat split; try done; simpl in *; destruct Hv as [|[[] []]]; congruence.
  - exists (Some lt), NULL.
    pose proof (lookup_insert_eq (<[lt := Chars t]> h) (fresh (dom h))
                  (Args (mk_args (Some lt) NULL q c))) as Ha.
    rewrite (sc_args_is_version_query_ok _ _ _ Ha),
      (sc_args_is_classic_confinement_ok _ _ _ Ha),
      (sc_args_security_tag_ok _ _ _ Ha), (sc_args_executable_ok _ _ _ Ha).
    repeat split; try done; simpl in *.
    + apply Hstr. rewrite lookup_insert_ne by done. apply lookup_insert_eq.
    + destruct Hv as [|[_ []]]; congruence.
  - exists (Some lt), (Some le).
    pose proof (lookup_insert_eq
                  (<[le := Chars e]> (<[lt := Chars t]> h)) (fresh (dom h))
                  (Args (mk_args (Some lt) (Some le) q c))) as Ha.
    rewrite (sc_args_is_version_query_ok _ _ _ Ha),
      (sc_args_is_classic_confinement_ok _ _ _ Ha),
      (sc_args_security_tag_ok _ _ _ Ha), (sc_args_executable_ok _ _ _ Ha).
    repeat split; try done; simpl in *; eauto.
    + apply Hstr. rewrite !lookup_insert_ne by done. apply lookup_insert_eq.
    + apply Hstr. rewrite lookup_insert_ne by done. apply lookup_insert_eq.
Qed.

Lemma parse_result_readable_witness :
  exists (h' : heap) (v : view) (t e : ptr loc),
    sc_args_is_version_query (Some 1%positive) h' =
      Ok (v_is_version_query v, h') /\
    sc_args_is_classic_confinement (Some 1%positive) h' =
      Ok (v_is_classic_confinement v, h') /\
    sc_args_security_tag (Some 1%positive) h' = Ok (t, h') /\
    string_at t h' = Ok (v_security_tag v, h') /\
    sc_args_executable (Some 1%positive) h' = Ok (e, h') /\
    string_at e h' = Ok (v_executable v, h') /\
    (v_is_version_query v = false ->
     is_Some (v_security_tag v) /\ is_Some (v_executable v)).
Proof.
  eexists.
  eapply (parse_result_readable (process_argc ["prog"; "tag"; "--version"])
            (process_argv ["prog"; "tag"; "--version"]) ∅
            (mk_result (Some 1%positive) _ _ NULL));
    [vm_compute; reflexivity|reflexivity].
Defined.

(** X12. On every process vector on which the call succeeds, the token at
    the position where the scan stopped, which is the original count minus
    the count written back, is ["--version"] when the result shows a version
    query, and then the result has no executable; otherwise it is the
    executable of the result. *)
Theorem parse_stops_at
    (toks : list string) (h : heap) (r : parse_result) (h' : heap) (v : view) :
  parse toks h = Ok (r, h') -> r_error r = NULL ->
  observe (r_args r) h' = Ok (v, h') ->
  exists n : nat,
    r_argc r = Some (Z.of_nat n) /\ (1 <= n < length toks)%nat /\
    ((v_is_version_query v = true /\ v_executable v = NULL /\
      toks !! (length toks - n)%nat = Some "--version") \/
     (v_is_version_query v = false /\
      exists e, v_executable v = Some e /\
                toks !! (length toks - n)%nat = Some e)).
Proof.
  intros E He Ho. pose proof (observe_success _ _ _ _ _ E He Ho) as ->.
  destruct (parse_success_inv _ _ _ _ E He)
    as (v' & -> & _ & Hstop & _ & Herr & Hv).
  destruct toks as [|prog rest]; [simpl in Hstop; lia|].
  exists (length (prog :: rest) - Z.to_nat (stop_position (prog :: rest)))%nat.
  split; [cbn [r_argc]; f_equal; lia|]. split; [lia|].
  replace (length (prog :: rest) -
           (length (prog :: rest) - Z.to_nat (stop_position (prog :: rest))))%nat
    with (S (Z.to_nat (stop_position (prog :: rest) - 1))) by lia.
  cbn [lookup list_lookup].
  unfold stop_position, scan_error, scan_view, scan_argv in *.
  cbn [tail hd length] in *.
  pose proof (scan_stop_token rest 1 view0 (legacy_name prog) Herr) as Hst.
  cbn zeta in Hst.
  destruct Hst as [(Hs & _)|[(Ht & Hq & Hex)|(e & Ht & Hex & _ & Hq)]].
  - lia.
  - left. split; [exact Hq|]. split; [exact Hex|exact Ht].
  - right. split; [exact Hq|]. exists e. split; [exact Hex|exact Ht].
Qed.

Lemma parse_stops_at_witness :
  exists n : nat,
    Some 3 = Some (Z.of_nat n) /\
    (1 <= n < length ["prog"; "tag"; "--version"; "x"; "y"])%nat /\
    ((true = true /\ @None string = NULL /\
      ["prog"; "tag"; "--version"; "x"; "y"]
        !! (length ["prog"; "tag"; "--version"; "x"; "y"] - n)%nat
      = Some "--version") \/
     (true = false /\
      exists e, @None string = Some e /\
        ["prog"; "tag"; "--version"; "x"; "y"]
          !! (length ["prog"; "tag"; "--version"; "x"; "y"] - n)%nat
        = Some e)).
Proof.
  eapply (parse_stops_at ["prog"; "tag"; "--version"; "x"; "y"] ∅
            (mk_result _ _ _ _) _ (mk_view (Some "tag") NULL true false));
    [vm_compute; reflexivity|reflexivity|vm_compute; reflexivity].
Defined.

(** X13. On every process vector on which the call succeeds, neither the
    security tag nor the executable of the result begins with ['-']. *)
Theorem parse_strings_not_switches
    (toks : list string) (h : heap) (r : parse_result) (h' : heap) (v : view) :
  parse toks h = Ok (r, h') -> r_error r = NULL ->
  observe (r_args r) h' = Ok (v, h') ->
  (forall t, v_security_tag v = Some t -> first_char t <> "-"%char) /\
  (forall e, v_executable v = Some e -> first_char e <> "-"%char).
Proof.
  intros E He Ho. pose proof (observe_success _ _ _ _ _ E He Ho) as ->.
  destruct (scan_strings (tail toks) 1 view0
              (legacy_name (hd EmptyString toks))) as [Ht Hx].
  split.
  - intros t Et. destruct (Ht t Et) as [|[_ Hd]]; [done|].
    by apply Ascii.eqb_neq.
  - intros e Ee. destruct (Hx e Ee) as [|[_ Hd]]; [done|].
    by apply Ascii.eqb_neq.
Qed.

Lemma parse_strings_not_switches_witness :
  (forall t, Some "tag" = Some t -> first_char t <> "-"%char) /\
  (forall e, Some "exe" = Some e -> first_char e <> "-"%char).
Proof.
  eapply (parse_strings_not_switches ["prog"; "--classic"; "tag"; "exe"] ∅
            (mk_result _ _ _ _) _
            (mk_view (Some "tag") (Some "exe") false true));
    [vm_compute; reflexivity|reflexivity|vm_compute; reflexivity].
Defined.

(** X14. The first positional arguments win. On every process vector on
    which the call succeeds without a version query, the positional tokens
    among those scanned, [argv[1]] up to the stop position, are exactly the
    security tag and the executable of the result, in this order, preceded
    by one skipped token when the code takes [argv[0]] for the legacy
    launcher and by nothing otherwise. *)
Theorem parse_first_positionals
    (toks : list string) (h : heap) (r : parse_result) (h' : heap) (v : view) :
  parse toks h = Ok (r, h') -> r_error r = NULL ->
  observe (r_args r) h' = Ok (v, h') ->
  v_is_version_query v = false ->
  exists (n : nat) (skipped : list string) (t e : string),
    r_argc r = Some (Z.of_nat n) /\
    v_security_tag v = Some t /\ v_executable v = Some e /\
    List.filter positional (take (length toks - n) (tail toks)) =
      skipped ++ [t; e] /\
    length skipped =
      if legacy_name (hd EmptyString toks) then 1%nat else 0%nat.
Proof.
  intros E He Ho Hq. pose proof (observe_success _ _ _ _ _ E He Ho) as ->.
  destruct (parse_success_inv _ _ _ _ E He)
    as (v' & -> & _ & Hstop & _ & Herr & [Hq'|(t & e & Et & Ee)]);
    [congruence|].
  destruct toks as [|prog rest]; [simpl in Hstop; lia|].
  exists (length (prog :: rest) - Z.to_nat (stop_position (prog :: rest)))%nat.
  replace (length (prog :: rest) -
           (length (prog :: rest) - Z.to_nat (stop_position (prog :: rest))))%nat
    with (S (Z.to_nat (stop_position (prog :: rest) - 1))) by lia.
  unfold stop_position, scan_error, scan_view, scan_argv in *.
  cbn [tail hd length] in *.
  destruct (scan_positionals rest 1 view0 (legacy_name prog) e Herr eq_refl Ee)
    as (_ & H2 & H3).
  destruct (legacy_name prog).
  - destruct (H3 eq_refl eq_refl) as (p & t' & Et' & Hf).
    exists [p], t', e. split; [cbn [r_argc]; f_equal; lia|].
    by repeat split.
  - destruct (H2 eq_refl eq_refl) as (t' & Et' & Hf).
    exists [], t', e. split; [cbn [r_argc]; f_equal; lia|].
    by repeat split.
Qed.

Lemma parse_first_positionals_witness :
  exists (n : nat) (skipped : list string) (t e : string),
    Some 2 = Some (Z.of_nat n) /\
    Some "tag" = Some t /\ Some "exe" = Some e /\
    List.filter positional
      (take (length ["/x/ubuntu-core-launcher"; "--classic"; "old"; "tag";
                     "--classic"; "exe"; "more"] - n)
         (tail ["/x/ubuntu-core-launcher"; "--classic"; "old"; "tag";
                "--classic"; "exe"; "more"])) =
      skipped ++ [t; e] /\
    length skipped =
      if legacy_name
           (hd EmptyString
              ["/x/ubuntu-core-launcher"; "--classic"; "old"; "tag";
               "--classic"; "exe"; "more"])
      then 1%nat else 0%nat.
Proof.
  eapply (parse_first_positionals
            ["/x/ubuntu-core-launcher"; "--classic"; "old"; "tag";
             "--classic"; "exe"; "more"] ∅
            (mk_result _ _ _ _) _
            (mk_view (Some "tag") (Some "exe") false true));
    [vm_compute; reflexivity|reflexivity|vm_compute; reflexivity|reflexivity].
Defined.

(** X15. The errors of the parser. On every process vector, when the call
    returns an error it is one of four: the generic error for a count of
    zero, exactly when the vector is empty; the usage error for a missing
    security tag; the usage error for a missing executable; or the usage
    error that names a token of [argv[1..]] which begins with ['-'] and is
    neither ["--version"] nor ["--classic"]. *)
Theorem parse_errors
    (toks : list string) (h : heap) (r : parse_result) (h' : heap)
    (e : sc_error) :
  parse toks h = Ok (r, h') -> r_error r = Some e ->
  (toks = [] /\
   e = mk_error SC_ARGS_DOMAIN 0 "cannot parse arguments, argc is zero") \/
  (toks <> [] /\
   (e = mk_error SC_ARGS_DOMAIN SC_ARGS_ERR_USAGE
          "application or hook security tag was not provided" \/
    e = mk_error SC_ARGS_DOMAIN SC_ARGS_ERR_USAGE
          "executable name was not provided" \/
    exists tok, tok ∈ tail toks /\ first_char tok = "-"%char /\
      tok <> "--version" /\ tok <> "--classic" /\
      e = mk_error SC_ARGS_DOMAIN SC_ARGS_ERR_USAGE
            ("unrecognized command line option: " +:+ tok))).
Proof.
  intros E He. destruct toks as [|prog rest].
  { left. split; [done|]. rewrite parse_empty in E.
    injection E as <- <-. simpl in He. by injection He as <-. }
  right. split; [done|].
  destruct (parse_verdict prog rest h) as (r1 & h1 & E1 & Hv & _).
  rewrite E1 in E. simplify_eq. rewrite He in Hv. unfold verdict in Hv.
  destruct (scan_error (prog :: rest)) as [e'|] eqn:Es.
  - right. right. simplify_eq.
    by apply (scan_error_form rest 1 view0 (legacy_name prog)).
  - destruct (v_is_version_query (scan_view (prog :: rest))); [done|].
    cbn [negb] in Hv.
    destruct (v_security_tag (scan_view (prog :: rest)));
      [|left; by simplify_eq].
    destruct (v_executable (scan_view (prog :: rest))); [done|].
    right. left. by simplify_eq.
Qed.

Lemma parse_errors_witness :
  let e := mk_error SC_ARGS_DOMAIN SC_ARGS_ERR_USAGE
             "unrecognized command line option: -x" in
  (["prog"; "tag"; "-x"] = [] /\
   e = mk_error SC_ARGS_DOMAIN 0 "cannot parse arguments, argc is zero") \/
  (["prog"; "tag"; "-x"] <> [] /\
   (e = mk_error SC_ARGS_DOMAIN SC_ARGS_ERR_USAGE
          "application or hook security tag was not provided" \/
    e = mk_error SC_ARGS_DOMAIN SC_ARGS_ERR_USAGE
          "executable name was not provided" \/
    exists tok, tok ∈ tail ["prog"; "tag"; "-x"] /\
      first_char tok = "-"%char /\
      tok <> "--version" /\ tok <> "--classic" /\
      e = mk_error SC_ARGS_DOMAIN SC_ARGS_ERR_USAGE
            ("unrecognized command line option: " +:+ tok))).
Proof.
  intros e.
  apply (parse_errors ["prog"; "tag"; "-x"] ∅
           (failure ["prog"; "tag"; "-x"] e) ∅ e);
    [vm_compute; reflexivity|reflexivity].
Defined.

(** X16. On every process vector on which the call succeeds, the vector
    written back is the same array: it has the original length, and every
    slot after the new terminator holds what it held before the call. *)
Theorem parse_keeps_array_tail
    (toks : list string) (h : heap) (r : parse_result) (h' : heap) :
  parse toks h = Ok (r, h') -> r_error r = NULL ->
  exists (n : nat) (v' : vec),
    r_argc r = Some (Z.of_nat n) /\ r_argv r = Some (Some v') /\
    length v' = S (length toks) /\
    v' !! n = Some NULL /\
    forall k, (n < k)%nat -> v' !! k = ((Some <$> toks) ++ [NULL]) !! k.
Proof.
  intros E He.
  destruct (parse_success_inv _ _ _ _ E He)
    as (v' & -> & _ & Hstop & (Hlen & _ & _ & Hn & Htail) & _).
  exists (length toks - Z.to_nat (stop_position toks))%nat, v'.
  split; [cbn [r_argc]; f_equal; lia|]. by repeat split.
Qed.

Lemma parse_keeps_array_tail_witness :
  exists (n : nat) (v' : vec),
    Some 2 = Some (Z.of_nat n) /\
    Some (Some [Some "prog"; Some "arg"; NULL; Some "arg"; NULL])
      = Some (Some v') /\
    length v' = S (length ["prog"; "tag"; "exe"; "arg"]) /\
    v' !! n = Some NULL /\
    forall k, (n < k)%nat ->
      v' !! k = ((Some <$> ["prog"; "tag"; "exe"; "arg"]) ++ [NULL]) !! k.
Proof.
  eapply (parse_keeps_array_tail ["prog"; "tag"; "exe"; "arg"] ∅
            (mk_result _ _ _ _));
    [vm_compute; reflexivity|reflexivity].
Defined.

(** X17. The defensive failures. When a handle is [NULL] or the count is
    zero, the call returns the generic error, code 0, without allocating
    and without reading the vector: it returns even when the vector
    pointer itself is [NULL] or the array is empty, and leaves the cells
    and the heap as they were. *)
Theorem parse_defensive_failure
    (argcp : ptr Z) (argvp : ptr (ptr vec)) (h : heap) :
  argcp = NULL \/ argvp = NULL \/ argcp = Some 0 ->
  exists msg,
    sc_nonfatal_parse_args argcp argvp h =
      Ok (mk_result NULL argcp argvp (Some (mk_error SC_ARGS_DOMAIN 0 msg)),
          h).
Proof.
  intros [->|[->| ->]].
  - by eexists.
  - destruct argcp; by eexists.
  - destruct argvp; by eexists.
Qed.

Lemma parse_defensive_failure_witness :
  exists msg,
    sc_nonfatal_parse_args (Some 0) (Some NULL) ∅ =
      Ok (mk_result NULL (Some 0) (Some NULL)
            (Some (mk_error SC_ARGS_DOMAIN 0 msg)), ∅).
Proof.
  apply (parse_defensive_failure (Some 0) (Some NULL) ∅). right. by right.
Defined.
